(** * Hybrid images: a shallow embedding of [hybrid.py]

    The Python module builds hybrid images out of six functions:
    [gaussian_blur_kernel_2d], [cross_correlation_2d], [convolve_2d],
    [low_pass], [high_pass] and the orchestrating [create_hybrid_image].

    Modelling conventions.
    - A numpy array is a record holding its [dtype], its [shape] and its
      samples as nested lists (row, column, channel).  The shape is kept
      explicitly because numpy keeps it even for arrays without elements.
    - Samples are finite real numbers and the arithmetic on float arrays
      is exact arithmetic over [R]: rounding is not modelled.  What
      changes the outcome in kind is modelled: the exceptions of Python's
      float [**] and [/], and the wrap-around of 8-bit integer arrays.  An
      8-bit sample is an integer between 0 and 255 seen as a real.  The
      properties below that compare computed values with exact ones
      carry an explicit tolerance.
    - Python exceptions are values of [pyexn]; a function that can raise
      returns a [result].
    - Python [int] arguments are [Z]; list positions are [nat]. *)

From Stdlib Require Import String Ascii.
From Stdlib Require Import Reals Lra Lia ZArith List Bool Arith.
Import ListNotations.

Open Scope R_scope.

(** ** Exceptions *)

Inductive pyexn : Type :=
| ValueError
| ZeroDivisionError
| OverflowError
| TypeError.

Inductive result (A : Type) : Type :=
| Ok (a : A)
| Raise (e : pyexn).

Arguments Ok {A} a.
Arguments Raise {A} e.

Definition bind {A B : Type} (m : result A) (k : A -> result B) : result B :=
  match m with
  | Ok a => k a
  | Raise e => Raise e
  end.

Notation "x <- m ;; k" := (bind m (fun x => k))
  (at level 61, m at next level, right associativity).

(** A [for] loop that fills a list, stopping at the first exception. *)
Fixpoint mapM {A B : Type} (f : A -> result B) (l : list A) : result (list B) :=
  match l with
  | [] => Ok []
  | x :: l' => y <- f x ;; ys <- mapM f l' ;; Ok (y :: ys)
  end.

(** ** Arrays *)

Inductive dtype : Type := uint8 | float32 | float64.

Definition dtype_eqb (a b : dtype) : bool :=
  match a, b with
  | uint8, uint8 | float32, float32 | float64, float64 => true
  | _, _ => false
  end.

(** Truncation toward zero, as a float-to-integer cast does. *)
Definition Ztrunc (x : R) : Z :=
  if Rle_dec 0 x then Int_part x else (- Int_part (- x))%Z.

(** The value an array of type [d] stores for the exact result [x]:
    8-bit arrays keep the integer part modulo 256, float arrays keep [x]. *)
Definition cast_to (d : dtype) (x : R) : R :=
  match d with
  | uint8 => IZR (Ztrunc x mod 256)
  | float32 | float64 => x
  end.

(** Result type of an operation on two arrays. *)
Definition promote (a b : dtype) : dtype :=
  match a, b with
  | float64, _ | _, float64 => float64
  | float32, _ | _, float32 => float32
  | uint8, uint8 => uint8
  end.

(** Result type of an operation between an array and a Python float. *)
Definition promote_float (a : dtype) : dtype :=
  match a with
  | uint8 => float64
  | d => d
  end.

(** Two-dimensional array (a kernel): [dtype], [shape = (kh, kw)]. *)
Record ndarray2 : Type := mkArr2 {
  kdtype : dtype;
  kh : nat;
  kw : nat;
  kdata : list (list R)
}.

(** Three-dimensional array (an image): [shape = (ih, iw, ic)]. *)
Record ndarray3 : Type := mkArr3 {
  idtype : dtype;
  ih : nat;
  iw : nat;
  ic : nat;
  idata : list (list (list R))
}.

(** The nested lists agree with the recorded shape. *)
Definition rect2 (m n : nat) (d : list (list R)) : bool :=
  (length d =? m)%nat && forallb (fun row => (length row =? n)%nat) d.

Definition rect3 (h w c : nat) (d : list (list (list R))) : bool :=
  (length d =? h)%nat && forallb (fun row => rect2 w c row) d.

Definition wf2 (k : ndarray2) : bool := rect2 (kh k) (kw k) (kdata k).
Definition wf3 (a : ndarray3) : bool := rect3 (ih a) (iw a) (ic a) (idata a).

(** [a[i, j]] and [a[i, j, k]] on the nested lists; positions outside the
    lists read as 0 (the models below only read inside, see [patch_rect]). *)
Definition get2 (d : list (list R)) (i j : nat) : R :=
  nth j (nth i d []) 0.

Definition get3 (d : list (list (list R))) (i j k : nat) : R :=
  nth k (nth j (nth i d []) []) 0.

(** Array comprehension over [range(n)]. *)
Definition tabulate {A : Type} (n : nat) (f : nat -> A) : list A :=
  map f (seq 0 n).

Definition tabulate3 (h w c : nat) (f : nat -> nat -> nat -> R)
  : list (list (list R)) :=
  tabulate h (fun i => tabulate w (fun j => tabulate c (fun k => f i j k))).

Definition map3 (f : R -> R) (d : list (list (list R))) : list (list (list R)) :=
  map (map (map f)) d.

(** [np.sum] of a one- and a two-dimensional array. *)
Definition np_sum1 (l : list R) : R := fold_right Rplus 0 l.
Definition np_sum2 (d : list (list R)) : R := np_sum1 (map np_sum1 d).

(** Elementwise combination of two lists of equal length. *)
Fixpoint zip_with {A B C : Type} (f : A -> B -> C) (xs : list A) (ys : list B)
  : list C :=
  match xs, ys with
  | x :: xs', y :: ys' => f x y :: zip_with f xs' ys'
  | _, _ => []
  end.

(** [patch * kernel] for two arrays of the same shape; [d] is the type of
    the product array, so 8-bit products wrap around. *)
Definition np_mul2 (d : dtype) (a b : list (list R)) : list (list R) :=
  zip_with (zip_with (fun x y => cast_to d (x * y))) a b.

(** ** [gaussian_blur_kernel_2d] *)

(** The binary64 range of [sigma ** 2] for a Python float [sigma]: the
    power raises OverflowError when the square reaches 2^1024, and it is
    0.0 when the square is at most 2^-1075 (half the smallest positive
    float). *)
Definition sq_overflow : R := IZR (2 ^ 1024).
Definition sq_underflow : R := / IZR (2 ^ 1075).

(** The value stored at [kernel[i, j]].  Python raises OverflowError in
    [sigma ** 2] when the square overflows, and ZeroDivisionError in the
    float division when [2 * sigma ** 2] is 0.0. *)
Definition gaussian_entry (sigma : R) (center_y center_x : Z) (i j : nat)
  : result R :=
  let num := (- ((Z.of_nat i - center_y) ^ 2 + (Z.of_nat j - center_x) ^ 2))%Z in
  if Rle_dec sq_overflow (sigma ^ 2) then Raise OverflowError
  else if Rle_dec (sigma ^ 2) sq_underflow then Raise ZeroDivisionError
  else Ok (exp (IZR num / (2 * sigma ^ 2))).

Definition gaussian_blur_kernel_2d (sigma : R) (height width : Z)
  : result ndarray2 :=
  (* np.zeros((height, width)) *)
  if ((height <? 0) || (width <? 0))%Z then Raise ValueError
  else
    let center_x := (width / 2)%Z in
    let center_y := (height / 2)%Z in
    kernel <- mapM (fun i =>
                mapM (fun j => gaussian_entry sigma center_y center_x i j)
                     (seq 0 (Z.to_nat width)))
              (seq 0 (Z.to_nat height)) ;;
    let total := np_sum2 kernel in
    Ok (mkArr2 float64 (Z.to_nat height) (Z.to_nat width)
               (map (map (fun x => x / total)) kernel)).

(** ** [cross_correlation_2d] *)

(** [np.pad(img, ((ph, ph), (pw, pw), (0, 0)), mode='constant',
    constant_values=0)] *)
Definition np_pad (img : ndarray3) (ph pw : nat) : ndarray3 :=
  let zpx := repeat 0 (ic img) in
  let zrow := repeat zpx (pw + iw img + pw) in
  mkArr3 (idtype img) (ph + ih img + ph) (pw + iw img + pw) (ic img)
    (repeat zrow ph
     ++ map (fun row => repeat zpx pw ++ row ++ repeat zpx pw) (idata img)
     ++ repeat zrow ph).

(** [a[i:i+m, j:j+n, k]]: Python slices stop at the end of the array. *)
Definition slice_patch (d : list (list (list R))) (i m j n k : nat)
  : list (list R) :=
  map (fun row => map (fun px => nth k px 0) (firstn n (skipn j row)))
      (firstn m (skipn i d)).

Definition cross_correlation_2d (img : ndarray3) (kernel : ndarray2) : ndarray3 :=
  let pad_height := (kh kernel / 2)%nat in
  let pad_width := (kw kernel / 2)%nat in
  let padded_img := np_pad img pad_height pad_width in
  mkArr3 float64 (ih img) (iw img) (ic img)
    (tabulate3 (ih img) (iw img) (ic img) (fun i j k =>
       let patch := slice_patch (idata padded_img) i (kh kernel) j (kw kernel) k in
       np_sum2 (np_mul2 (promote (idtype padded_img) (kdtype kernel))
                        patch (kdata kernel)))).

(** ** [convolve_2d] *)

(** [np.flip(kernel)] reverses every axis. *)
Definition np_flip (kernel : ndarray2) : ndarray2 :=
  mkArr2 (kdtype kernel) (kh kernel) (kw kernel)
         (rev (map (@rev R) (kdata kernel))).

Definition convolve_2d (img : ndarray3) (kernel : ndarray2) : ndarray3 :=
  let flipped_kernel := np_flip kernel in
  cross_correlation_2d img flipped_kernel.

(** ** Elementwise arithmetic with numpy's conventions *)

(** Broadcasting of one axis: equal lengths, or one of them is 1. *)
Definition broadcast_dim (a b : nat) : result nat :=
  if (a =? b)%nat then Ok a
  else if (a =? 1)%nat then Ok b
  else if (b =? 1)%nat then Ok a
  else Raise ValueError.

(** Position read along an axis of length [n] that is being broadcast. *)
Definition bidx (n i : nat) : nat := if (n =? 1)%nat then 0%nat else i.

(** [a op b] for two three-dimensional arrays. *)
Definition np_binop (f : R -> R -> R) (a b : ndarray3) : result ndarray3 :=
  h <- broadcast_dim (ih a) (ih b) ;;
  w <- broadcast_dim (iw a) (iw b) ;;
  c <- broadcast_dim (ic a) (ic b) ;;
  let d := promote (idtype a) (idtype b) in
  Ok (mkArr3 d h w c
        (tabulate3 h w c (fun i j k =>
           cast_to d
             (f (get3 (idata a) (bidx (ih a) i) (bidx (iw a) j) (bidx (ic a) k))
                (get3 (idata b) (bidx (ih b) i) (bidx (iw b) j) (bidx (ic b) k)))))).

Definition np_add : ndarray3 -> ndarray3 -> result ndarray3 := np_binop Rplus.
Definition np_sub : ndarray3 -> ndarray3 -> result ndarray3 := np_binop Rminus.

(** [a.astype(d)] *)
Definition astype (d : dtype) (a : ndarray3) : ndarray3 :=
  mkArr3 d (ih a) (iw a) (ic a) (map3 (cast_to d) (idata a)).

(** [a / s] and [a * s] with [s] a Python float. *)
Definition np_div_float (a : ndarray3) (s : R) : ndarray3 :=
  mkArr3 (promote_float (idtype a)) (ih a) (iw a) (ic a)
         (map3 (fun x => x / s) (idata a)).

Definition np_mul_float (a : ndarray3) (s : R) : ndarray3 :=
  mkArr3 (promote_float (idtype a)) (ih a) (iw a) (ic a)
         (map3 (fun x => x * s) (idata a)).

(** [a *= s] with [s] a Python float: the product is stored back into [a],
    which numpy refuses for an integer array. *)
Definition np_imul_float (a : ndarray3) (s : R) : result ndarray3 :=
  match idtype a with
  | uint8 => Raise TypeError
  | d => Ok (mkArr3 d (ih a) (iw a) (ic a) (map3 (fun x => x * s) (idata a)))
  end.

(** [a * n] with [n] a Python int: the array keeps its type. *)
Definition np_mul_int (a : ndarray3) (n : Z) : ndarray3 :=
  mkArr3 (idtype a) (ih a) (iw a) (ic a)
         (map3 (fun x => cast_to (idtype a) (x * IZR n)) (idata a)).

(** [a.clip(lo, hi)] is [minimum(maximum(a, lo), hi)]. *)
Definition np_clip (a : ndarray3) (lo hi : R) : ndarray3 :=
  mkArr3 (idtype a) (ih a) (iw a) (ic a)
         (map3 (fun x => Rmin (Rmax x lo) hi) (idata a)).

(** ** [low_pass] and [high_pass] *)

Definition low_pass (img : ndarray3) (sigma : R) (size : Z) : result ndarray3 :=
  kernel <- gaussian_blur_kernel_2d sigma size size ;;
  Ok (cross_correlation_2d img kernel).

Definition high_pass (img : ndarray3) (sigma : R) (size : Z) : result ndarray3 :=
  low_pass_filtered_img <- low_pass img sigma size ;;
  high_pass_filtered_img <- np_sub img low_pass_filtered_img ;;
  Ok high_pass_filtered_img.

(** ** [create_hybrid_image] *)

(** [str.lower()] on the ASCII letters. *)
Definition lower_ascii (c : ascii) : ascii :=
  let n := nat_of_ascii c in
  if ((65 <=? n) && (n <=? 90))%nat then ascii_of_nat (n + 32) else c.

Fixpoint lower (s : string) : string :=
  match s with
  | EmptyString => EmptyString
  | String c s' => String (lower_ascii c) (lower s')
  end.

Definition create_hybrid_image (img1 img2 : ndarray3)
    (sigma1 : R) (size1 : Z) (high_low1 : string)
    (sigma2 : R) (size2 : Z) (high_low2 : string)
    (mixin_ratio scale_factor : R) : result ndarray3 :=
  let high_low1 := lower high_low1 in
  let high_low2 := lower high_low2 in
  let '(img1, img2) :=
    if dtype_eqb (idtype img1) uint8
    then (np_div_float (astype float32 img1) 255,
          np_div_float (astype float32 img2) 255)
    else (img1, img2) in
  img1 <- (if String.eqb high_low1 "low"
           then low_pass img1 sigma1 size1
           else high_pass img1 sigma1 size1) ;;
  img2 <- (if String.eqb high_low2 "low"
           then low_pass img2 sigma2 size2
           else high_pass img2 sigma2 size2) ;;
  img1 <- np_imul_float img1 (1 - mixin_ratio) ;;
  img2 <- np_imul_float img2 mixin_ratio ;;
  sum <- np_add img1 img2 ;;
  let hybrid_img := np_mul_float sum scale_factor in
  Ok (astype uint8 (np_clip (np_mul_int hybrid_img 255) 0 255)).

(** ** Reference notions used to state the properties *)

(** [bigsum n f] is f(0) + f(1) + ... + f(n-1). *)
Fixpoint bigsum (n : nat) (f : nat -> R) : R :=
  match n with
  | O => 0
  | S n' => f O + bigsum n' (fun a => f (S a))
  end.

(** The image extended by zeros: sample [(r, c, k)] of the image framed by
    [ph] zero rows above and below and [pw] zero columns left and right. *)
Definition padded_at (img : ndarray3) (ph pw : nat) (r c k : nat) : R :=
  if ((ph <=? r) && (r <? ph + ih img) && (pw <=? c) && (c <? pw + iw img))%nat
  then get3 (idata img) (r - ph) (c - pw) k
  else 0.

(** Unnormalised Gaussian weight of cell [(i, j)] of an [h] x [w] kernel. *)
Definition gauss_weight (sigma : R) (h w : Z) (i j : nat) : R :=
  exp (- IZR ((Z.of_nat i - h / 2) ^ 2 + (Z.of_nat j - w / 2) ^ 2)
       / (2 * sigma ^ 2)).

(** The table of weights before normalisation. *)
Definition gauss_table (sigma : R) (h w : Z) : list (list R) :=
  tabulate (Z.to_nat h) (fun i => tabulate (Z.to_nat w) (gauss_weight sigma h w i)).

(** The kernel of Gaussian weights divided by their total. *)
Definition gauss_kernel (sigma : R) (h w : Z) : ndarray2 :=
  mkArr2 float64 (Z.to_nat h) (Z.to_nat w)
    (map (map (fun x => x / np_sum2 (gauss_table sigma h w)))
         (gauss_table sigma h w)).

(** The square of sigma is a positive binary64 number: [sigma ** 2]
    neither overflows nor is 0.0. *)
Definition sigma_in_range (sigma : R) : Prop :=
  sq_underflow < sigma ^ 2 < sq_overflow.

(** Relative tolerance allowed between a computed float and the exact
    value it stands for. *)
Definition tol : R := 1e-9.

(** All samples of an image satisfy [P]. *)
Definition all_samples (P : R -> Prop) (a : ndarray3) : Prop :=
  Forall (Forall (Forall P)) (idata a).

(** A value an 8-bit sample can take. *)
Definition is_uint8 (x : R) : Prop :=
  exists z : Z, (0 <= z <= 255)%Z /\ x = IZR z.

(** *** The stages of [create_hybrid_image] *)

(** The array [a] relabelled with the type [d], samples untouched. *)
Definition set_dtype (d : dtype) (a : ndarray3) : ndarray3 :=
  mkArr3 d (ih a) (iw a) (ic a) (idata a).

(** The shape of [a op b], or the broadcasting failure. *)
Definition broadcast_shape (a b : ndarray3) : result (nat * nat * nat) :=
  h <- broadcast_dim (ih a) (ih b) ;;
  w <- broadcast_dim (iw a) (iw b) ;;
  c <- broadcast_dim (ic a) (ic b) ;;
  Ok (h, w, c).

(** The exception a computation ends with, if any. *)
Definition raised {A : Type} (m : result A) : option pyexn :=
  match m with Ok _ => None | Raise e => Some e end.

(** Lines 120-122: the two images as they enter the filters. *)
Definition normalise_pair (img1 img2 : ndarray3) : ndarray3 * ndarray3 :=
  if dtype_eqb (idtype img1) uint8
  then (np_div_float (astype float32 img1) 255,
        np_div_float (astype float32 img2) 255)
  else (img1, img2).

(** Lines 124-132: the filter a mode string selects. *)
Definition filter_of_mode (mode : string)
  : ndarray3 -> R -> Z -> result ndarray3 :=
  if String.eqb (lower mode) "low" then low_pass else high_pass.

(** Lines 134-137: weighting, sum, scaling and conversion to 8 bits. *)
Definition mix_and_quantise (f1 f2 : ndarray3) (mixin_ratio scale_factor : R)
  : result ndarray3 :=
  a <- np_imul_float f1 (1 - mixin_ratio) ;;
  b <- np_imul_float f2 mixin_ratio ;;
  sum <- np_add a b ;;
  Ok (astype uint8 (np_clip (np_mul_int (np_mul_float sum scale_factor) 255) 0 255)).

(** Lines 124-137, applied to images that are already normalised. *)
Definition hybrid_after_normalisation (n1 n2 : ndarray3)
    (sigma1 : R) (size1 : Z) (high_low1 : string)
    (sigma2 : R) (size2 : Z) (high_low2 : string)
    (mixin_ratio scale_factor : R) : result ndarray3 :=
  f1 <- filter_of_mode high_low1 n1 sigma1 size1 ;;
  f2 <- filter_of_mode high_low2 n2 sigma2 size2 ;;
  mix_and_quantise f1 f2 mixin_ratio scale_factor.

(** *** The hybrid image as the specification words it *)

(** The single-precision image whose samples are those of [img] divided
    by 255. *)
Definition divided_by_255 (img : ndarray3) : ndarray3 :=
  mkArr3 float32 (ih img) (iw img) (ic img)
         (map3 (fun x => x / 255) (idata img)).

(** Weighted sum of two filtered samples, times the scale factor. *)
Definition blend (x1 x2 mixin_ratio scale_factor : R) : R :=
  (x1 * (1 - mixin_ratio) + x2 * mixin_ratio) * scale_factor.

(** Accuracy of the computed blend, times 255, for samples of magnitude
    at most [M] entering the filters and the scale factor [s]: the
    single-precision division by 255 and the double-precision filters and
    blend stay within one part in a million of the magnitudes 2 M of the
    filtered samples. *)
Definition blend_tol (M s : R) : R := 1e-6 * (510 * M * s).

(** Multiply by 255, clip to [0,255], truncate to an integer. *)
Definition quantise (x : R) : R :=
  IZR (Int_part (Rmin (Rmax (x * 255) 0) 255)).

(** An 8-bit input is normalised to floats by division by 255. *)
Definition normalise8 (img : ndarray3) : ndarray3 :=
  if dtype_eqb (idtype img) uint8 then divided_by_255 img else img.

(** Filter each normalised image, then blend and quantise sample by
    sample (the two images have one shape). *)
Definition hybrid_pipeline (n1 n2 : ndarray3)
    (sigma1 : R) (size1 : Z) (high_low1 : string)
    (sigma2 : R) (size2 : Z) (high_low2 : string)
    (mixin_ratio scale_factor : R) : result ndarray3 :=
  f1 <- filter_of_mode high_low1 n1 sigma1 size1 ;;
  f2 <- filter_of_mode high_low2 n2 sigma2 size2 ;;
  Ok (mkArr3 uint8 (ih n1) (iw n1) (ic n1)
        (tabulate3 (ih n1) (iw n1) (ic n1) (fun i j k =>
           quantise (blend (get3 (idata f1) i j k) (get3 (idata f2) i j k)
                           mixin_ratio scale_factor)))).

(** The claimed behaviour: every 8-bit input is normalised. *)
Definition hybrid_as_claimed (img1 img2 : ndarray3) :=
  hybrid_pipeline (normalise8 img1) (normalise8 img2).

(** *** Where the kernel construction fails *)

(** The exception [gaussian_blur_kernel_2d sigma size size] ends with:
    a negative size is refused by [np.zeros]; as soon as there is a cell
    to fill, a square of sigma that overflows raises OverflowError and one
    that is 0.0 divides by zero. *)
Definition kernel_error (sigma : R) (size : Z) : option pyexn :=
  if (size <? 0)%Z then Some ValueError
  else if (0 <? size)%Z
       then (if Rle_dec sq_overflow (sigma ^ 2) then Some OverflowError
             else if Rle_dec (sigma ^ 2) sq_underflow then Some ZeroDivisionError
             else None)
       else None.

(** The first exception among three, in the order they would occur. *)
Definition first_error (e1 e2 e3 : option pyexn) : option pyexn :=
  match e1, e2 with
  | Some e, _ => Some e
  | None, Some e => Some e
  | None, None => e3
  end.

(** ** Sample inputs *)

Definition img_3x3 : ndarray3 :=
  mkArr3 float64 3 3 1 [[[1]; [2]; [3]]; [[4]; [5]; [6]]; [[7]; [8]; [9]]].

Definition diag_3x3 : ndarray2 :=
  mkArr2 float64 3 3 [[1; 0; 0]; [0; 2; 0]; [0; 0; 3]].

Definition ramp_2x2 : ndarray2 :=
  mkArr2 float64 2 2 [[1; 2]; [3; 4]].


(** An image whose samples all equal [v]. *)
Definition full (d : dtype) (h w c : nat) (v : R) : ndarray3 :=
  mkArr3 d h w c (repeat (repeat (repeat v c) w) h).

(** A 3 x 3 image that differs from [img_3x3] in its last column only. *)
Definition img_3x3_alt : ndarray3 :=
  mkArr3 float64 3 3 1 [[[1]; [2]; [30]]; [[4]; [5]; [60]]; [[7]; [8]; [90]]].

(** The 8-bit 2 x 2 image the examples normalise. *)
Definition img_2x2_uint8 : ndarray3 :=
  mkArr3 uint8 2 2 1 [[[0]; [51]]; [[102]; [255]]].

(** A single pixel of one channel. *)
Definition pixel (d : dtype) (x : R) : ndarray3 := mkArr3 d 1 1 1 [[[x]]].

(** A one-row image of two pixels. *)
Definition row_1x2 : ndarray3 := mkArr3 float64 1 2 1 [[[1]; [1]]].

(** [np.zeros((h, w, c))] *)
Definition zeros (h w c : nat) : ndarray3 :=
  mkArr3 float64 h w c (repeat (repeat (repeat 0 c) w) h).


(** * Properties *)

(** ** Lists and shapes *)

Section ListFacts.

Context {A : Type}.

Lemma tabulate_length (n : nat) (f : nat -> A) :
  length (tabulate n f) = n.
Proof. unfold tabulate. now rewrite length_map, length_seq. Qed.

Lemma tabulate_nth (n : nat) (f : nat -> A) (i : nat) (d : A) :
  (i < n)%nat -> nth i (tabulate n f) d = f i.
Proof.
  intros Hi. unfold tabulate.
  rewrite (nth_indep _ d (f O)) by now rewrite length_map, length_seq.
  rewrite map_nth. now rewrite seq_nth.
Qed.

Lemma tabulate_In (n : nat) (f : nat -> A) (x : A) :
  In x (tabulate n f) -> exists i, (i < n)%nat /\ x = f i.
Proof.
  unfold tabulate. intros Hin. apply in_map_iff in Hin.
  destruct Hin as [i [Hf Hi]]. apply in_seq in Hi.
  exists i. split; [lia | now symmetry].
Qed.

Lemma tabulate_ext (n : nat) (f g : nat -> A) :
  (forall i, (i < n)%nat -> f i = g i) -> tabulate n f = tabulate n g.
Proof.
  intros H. unfold tabulate. apply map_ext_in.
  intros i Hi. apply in_seq in Hi. apply H. lia.
Qed.

Lemma tabulate_nth_self (l : list A) (d : A) :
  tabulate (length l) (fun i => nth i l d) = l.
Proof.
  apply (nth_ext _ _ d d).
  - apply tabulate_length.
  - intros i Hi. rewrite tabulate_length in Hi. now apply tabulate_nth.
Qed.

Lemma nth_repeat_cases (x d : A) (n i : nat) :
  nth i (repeat x n) d = if (i <? n)%nat then x else d.
Proof.
  destruct (Nat.ltb_spec i n).
  - now apply nth_repeat_lt.
  - apply nth_overflow. now rewrite repeat_length.
Qed.

End ListFacts.

Lemma nth_map_fix {A B : Type} (f : A -> B) (l : list A) (i : nat) (da : A) (db : B) :
  f da = db -> nth i (map f l) db = f (nth i l da).
Proof. intros <-. apply map_nth. Qed.

Lemma nth_map_lt {A B : Type} (f : A -> B) (l : list A) (i : nat) (da : A) (db : B) :
  (i < length l)%nat -> nth i (map f l) db = f (nth i l da).
Proof.
  intros Hi. rewrite (nth_indep _ db (f da)) by now rewrite length_map.
  apply map_nth.
Qed.

Lemma rect2_spec (m n : nat) (d : list (list R)) :
  rect2 m n d = true <->
  length d = m /\ forall i, (i < m)%nat -> length (nth i d []) = n.
Proof.
  unfold rect2. rewrite andb_true_iff, Nat.eqb_eq, forallb_forall. split.
  - intros [Hl Hall]. split; [exact Hl|]. intros i Hi.
    specialize (Hall (nth i d [])). rewrite Nat.eqb_eq in Hall.
    apply Hall, nth_In. lia.
  - intros [Hl Hall]. split; [exact Hl|]. intros row Hin.
    apply (In_nth _ _ []) in Hin. destruct Hin as [i [Hi <-]].
    apply Nat.eqb_eq, Hall. lia.
Qed.

Lemma rect3_spec (h w c : nat) (d : list (list (list R))) :
  rect3 h w c d = true <->
  length d = h /\
  forall i, (i < h)%nat ->
    length (nth i d []) = w /\
    forall j, (j < w)%nat -> length (nth j (nth i d []) []) = c.
Proof.
  unfold rect3. rewrite andb_true_iff, Nat.eqb_eq, forallb_forall. split.
  - intros [Hl Hall]. split; [exact Hl|]. intros i Hi.
    apply rect2_spec, Hall, nth_In. lia.
  - intros [Hl Hall]. split; [exact Hl|]. intros row Hin.
    apply (In_nth _ _ []) in Hin. destruct Hin as [i [Hi <-]].
    apply rect2_spec, Hall. lia.
Qed.

Lemma tabulate3_rect (h w c : nat) (f : nat -> nat -> nat -> R) :
  rect3 h w c (tabulate3 h w c f) = true.
Proof.
  apply rect3_spec. unfold tabulate3. split; [apply tabulate_length|].
  intros i Hi. rewrite tabulate_nth by lia. split; [apply tabulate_length|].
  intros j Hj. rewrite tabulate_nth by lia. apply tabulate_length.
Qed.

Lemma tabulate3_get (h w c : nat) (f : nat -> nat -> nat -> R) (i j k : nat) :
  (i < h)%nat -> (j < w)%nat -> (k < c)%nat ->
  get3 (tabulate3 h w c f) i j k = f i j k.
Proof.
  intros Hi Hj Hk. unfold get3, tabulate3.
  now rewrite !tabulate_nth by lia.
Qed.

Lemma tabulate3_ext (h w c : nat) (f g : nat -> nat -> nat -> R) :
  (forall i j k, (i < h)%nat -> (j < w)%nat -> (k < c)%nat -> f i j k = g i j k) ->
  tabulate3 h w c f = tabulate3 h w c g.
Proof.
  intros H. unfold tabulate3.
  apply tabulate_ext; intros i Hi.
  apply tabulate_ext; intros j Hj.
  apply tabulate_ext; intros k Hk. now apply H.
Qed.

(** A rectangular array is the table of its samples. *)
Lemma tabulate3_get_self (h w c : nat) (d : list (list (list R))) :
  rect3 h w c d = true -> tabulate3 h w c (get3 d) = d.
Proof.
  intros Hd. apply rect3_spec in Hd. destruct Hd as [Hl Hrows].
  unfold tabulate3, get3. subst h.
  transitivity (tabulate (length d) (fun i => nth i d [])).
  2: apply tabulate_nth_self.
  apply tabulate_ext; intros i Hi. destruct (Hrows i Hi) as [Hw Hpx].
  subst w. transitivity (tabulate (length (nth i d [])) (fun j => nth j (nth i d []) [])).
  2: apply tabulate_nth_self.
  apply tabulate_ext; intros j Hj. specialize (Hpx j Hj).
  subst c. apply tabulate_nth_self.
Qed.

Lemma map3_rect (h w c : nat) (f : R -> R) (d : list (list (list R))) :
  rect3 h w c d = true -> rect3 h w c (map3 f d) = true.
Proof.
  rewrite !rect3_spec. unfold map3. intros [Hl Hrows].
  split; [now rewrite length_map|]. intros i Hi.
  destruct (Hrows i Hi) as [Hw Hpx].
  rewrite (nth_indep _ [] (map (map f) [])) by (rewrite length_map; lia).
  rewrite map_nth. split; [now rewrite length_map|]. intros j Hj.
  rewrite (nth_indep _ [] (map f [])) by (rewrite length_map; lia).
  rewrite map_nth, length_map. now apply Hpx.
Qed.

Lemma map3_get (f : R -> R) (d : list (list (list R))) (h w c i j k : nat) :
  rect3 h w c d = true ->
  (i < h)%nat -> (j < w)%nat -> (k < c)%nat ->
  get3 (map3 f d) i j k = f (get3 d i j k).
Proof.
  rewrite rect3_spec. intros [Hl Hrows] Hi Hj Hk.
  destruct (Hrows i Hi) as [Hw Hpx]. specialize (Hpx j Hj).
  unfold get3, map3.
  rewrite (nth_indep _ [] (map (map f) [])) by (rewrite length_map; lia).
  rewrite map_nth.
  rewrite (nth_indep _ [] (map f [])) by (rewrite length_map; lia).
  rewrite map_nth.
  rewrite (nth_indep _ 0 (f 0)) by (rewrite length_map; lia).
  now rewrite map_nth.
Qed.

(** ** Sums *)

Lemma bigsum_ext (n : nat) (f g : nat -> R) :
  (forall a, (a < n)%nat -> f a = g a) -> bigsum n f = bigsum n g.
Proof.
  revert f g. induction n as [|n IH]; intros f g H; simpl; [reflexivity|].
  rewrite (H O) by lia. f_equal. apply IH. intros a Ha. apply H. lia.
Qed.

Lemma bigsum_scale (n : nat) (f : nat -> R) (s : R) :
  bigsum n (fun a => f a * s) = bigsum n f * s.
Proof.
  revert f. induction n as [|n IH]; intros f; simpl; [lra|].
  rewrite (IH (fun a => f (S a))). lra.
Qed.

Lemma bigsum_pos (n : nat) (f : nat -> R) :
  (0 < n)%nat -> (forall a, (a < n)%nat -> 0 < f a) -> 0 < bigsum n f.
Proof.
  revert f. induction n as [|n IH]; intros f Hn H; [lia|]. simpl.
  assert (H0 : 0 < f O) by (apply H; lia).
  destruct n as [|n].
  - simpl. lra.
  - assert (0 < bigsum (S n) (fun a => f (S a))).
    { apply IH; [lia|]. intros a Ha. apply H. lia. }
    lra.
Qed.

Lemma np_sum1_nth (l : list R) :
  np_sum1 l = bigsum (length l) (fun a => nth a l 0).
Proof.
  unfold np_sum1. induction l as [|x l IH]; simpl; [reflexivity|].
  now rewrite IH.
Qed.

Lemma np_sum2_get (m n : nat) (d : list (list R)) :
  rect2 m n d = true ->
  np_sum2 d = bigsum m (fun a => bigsum n (fun b => get2 d a b)).
Proof.
  rewrite rect2_spec. intros [Hl Hrows]. unfold np_sum2.
  rewrite np_sum1_nth, length_map, Hl.
  apply bigsum_ext. intros a Ha.
  change 0 with (np_sum1 []) at 1. rewrite map_nth.
  rewrite np_sum1_nth, (Hrows a Ha). reflexivity.
Qed.

Lemma zip_with_length {A B C : Type} (f : A -> B -> C) (xs : list A) (ys : list B) :
  length xs = length ys -> length (zip_with f xs ys) = length xs.
Proof.
  revert ys. induction xs as [|x xs IH]; intros [|y ys] H; simpl in *;
    try discriminate; [reflexivity|]. f_equal. apply IH. lia.
Qed.

Lemma zip_with_nth {A B C : Type} (f : A -> B -> C) (xs : list A) (ys : list B)
    (i : nat) (da : A) (db : B) (dc : C) :
  length xs = length ys -> (i < length xs)%nat ->
  nth i (zip_with f xs ys) dc = f (nth i xs da) (nth i ys db).
Proof.
  revert ys i. induction xs as [|x xs IH]; intros [|y ys] i H Hi; simpl in *;
    try discriminate; try lia.
  destruct i as [|i]; [reflexivity|]. apply IH; lia.
Qed.

Lemma np_mul2_rect (d : dtype) (m n : nat) (a b : list (list R)) :
  rect2 m n a = true -> rect2 m n b = true -> rect2 m n (np_mul2 d a b) = true.
Proof.
  rewrite !rect2_spec. intros [Hla Ha] [Hlb Hb]. unfold np_mul2.
  split; [rewrite zip_with_length; lia|]. intros i Hi.
  rewrite (zip_with_nth _ _ _ _ [] [] []) by lia.
  rewrite zip_with_length; [now apply Ha|]. rewrite Ha, Hb; lia.
Qed.

Lemma np_mul2_get (d : dtype) (m n : nat) (a b : list (list R)) (i j : nat) :
  rect2 m n a = true -> rect2 m n b = true ->
  (i < m)%nat -> (j < n)%nat ->
  get2 (np_mul2 d a b) i j = cast_to d (get2 a i j * get2 b i j).
Proof.
  rewrite !rect2_spec. intros [Hla Ha] [Hlb Hb] Hi Hj. unfold np_mul2, get2.
  rewrite (zip_with_nth _ _ _ _ [] [] []) by lia.
  apply (zip_with_nth (fun x y => cast_to d (x * y)));
    rewrite Ha by lia; [rewrite Hb; lia | lia].
Qed.

(** [np.sum(a * b)] as a double sum over the cells. *)
Lemma np_sum2_mul2 (d : dtype) (m n : nat) (a b : list (list R)) :
  rect2 m n a = true -> rect2 m n b = true ->
  np_sum2 (np_mul2 d a b)
  = bigsum m (fun i => bigsum n (fun j => cast_to d (get2 a i j * get2 b i j))).
Proof.
  intros Ha Hb. rewrite (np_sum2_get m n) by now apply np_mul2_rect.
  apply bigsum_ext; intros i Hi. apply bigsum_ext; intros j Hj.
  now apply (np_mul2_get d m n).
Qed.

(** ** Zero padding and windows *)

Lemma get_zero_rows (c n m r j k : nat) :
  nth k (nth j (nth r (repeat (repeat (repeat 0 c) n) m) []) []) 0 = 0.
Proof.
  rewrite nth_repeat_cases. destruct (r <? m)%nat.
  - rewrite nth_repeat_cases. destruct (j <? n)%nat.
    + rewrite nth_repeat_cases. now destruct (k <? c)%nat.
    + now destruct k.
  - destruct j; now destruct k.
Qed.

Lemma get_zero_px (c n j k : nat) :
  nth k (nth j (repeat (repeat 0 c) n) []) 0 = 0.
Proof.
  rewrite nth_repeat_cases. destruct (j <? n)%nat.
  - rewrite nth_repeat_cases. now destruct (k <? c)%nat.
  - now destruct k.
Qed.

(** [np.pad] frames the image with zeros: every sample of the padded array
    is the corresponding sample of the zero-extended image. *)
Lemma np_pad_get (img : ndarray3) (ph pw r c k : nat) :
  wf3 img = true ->
  get3 (idata (np_pad img ph pw)) r c k = padded_at img ph pw r c k.
Proof.
  intros Hwf. apply rect3_spec in Hwf. destruct Hwf as [Hl Hrows].
  unfold get3, padded_at, np_pad; simpl idata.
  destruct (Nat.leb_spec ph r) as [Hr1|Hr1]; simpl andb.
  2:{ rewrite app_nth1 by (rewrite repeat_length; lia). apply get_zero_rows. }
  rewrite app_nth2 by (rewrite repeat_length; lia). rewrite repeat_length.
  destruct (Nat.ltb_spec r (ph + ih img)) as [Hr2|Hr2]; simpl andb.
  2:{ rewrite app_nth2 by (rewrite length_map; lia). apply get_zero_rows. }
  rewrite app_nth1 by (rewrite length_map; lia).
  rewrite (nth_map_lt _ _ _ []) by lia.
  destruct (Hrows (r - ph)%nat) as [Hw _]; [lia|].
  destruct (Nat.leb_spec pw c) as [Hc1|Hc1]; simpl andb.
  2:{ rewrite app_nth1 by (rewrite repeat_length; lia). apply get_zero_px. }
  rewrite app_nth2 by (rewrite repeat_length; lia). rewrite repeat_length.
  destruct (Nat.ltb_spec c (pw + iw img)) as [Hc2|Hc2].
  - now rewrite app_nth1 by lia.
  - rewrite app_nth2 by lia. apply get_zero_px.
Qed.

Lemma np_pad_wf (img : ndarray3) (ph pw : nat) :
  wf3 img = true -> wf3 (np_pad img ph pw) = true.
Proof.
  intros Hwf. apply rect3_spec in Hwf. destruct Hwf as [Hl Hrows].
  unfold wf3, np_pad; simpl. apply rect3_spec.
  split; [rewrite !length_app, !repeat_length, length_map; lia|].
  intros r Hr.
  assert (Hzrow : forall m i,
            length (nth i (repeat (repeat (repeat 0 (ic img)) (pw + iw img + pw)) m) [])
              = (pw + iw img + pw)%nat
            \/ nth i (repeat (repeat (repeat 0 (ic img)) (pw + iw img + pw)) m) [] = []).
  { intros m i. rewrite nth_repeat_cases. destruct (i <? m)%nat; [left|right]; trivial.
    apply repeat_length. }
  destruct (Nat.lt_ge_cases r ph) as [Hr1|Hr1].
  { rewrite app_nth1 by (rewrite repeat_length; lia).
    rewrite nth_repeat_lt by lia. split; [apply repeat_length|].
    intros j Hj. rewrite nth_repeat_lt by lia. apply repeat_length. }
  rewrite app_nth2 by (rewrite repeat_length; lia). rewrite repeat_length.
  destruct (Nat.lt_ge_cases r (ph + ih img)) as [Hr2|Hr2].
  2:{ rewrite app_nth2 by (rewrite length_map; lia). rewrite length_map.
      rewrite nth_repeat_lt by lia. split; [apply repeat_length|].
      intros j Hj. rewrite nth_repeat_lt by lia. apply repeat_length. }
  rewrite app_nth1 by (rewrite length_map; lia).
  rewrite (nth_map_lt _ _ _ []) by lia.
  destruct (Hrows (r - ph)%nat) as [Hw Hpx]; [lia|].
  split; [rewrite !length_app, !repeat_length; lia|].
  intros j Hj.
  destruct (Nat.lt_ge_cases j pw) as [Hj1|Hj1].
  { rewrite app_nth1 by (rewrite repeat_length; lia).
    rewrite nth_repeat_lt by lia. apply repeat_length. }
  rewrite app_nth2 by (rewrite repeat_length; lia). rewrite repeat_length.
  destruct (Nat.lt_ge_cases j (pw + iw img)) as [Hj2|Hj2].
  - rewrite app_nth1 by lia. apply Hpx. lia.
  - rewrite app_nth2 by lia. rewrite nth_repeat_lt by lia. apply repeat_length.
Qed.

(** Cell [(a, b)] of the window cut at [(i, j)] in channel [k]. *)
Lemma slice_patch_get (d : list (list (list R))) (i m j n k a b : nat) :
  (a < m)%nat -> (b < n)%nat ->
  get2 (slice_patch d i m j n k) a b = get3 d (i + a) (j + b) k.
Proof.
  intros Ha Hb. unfold get2, slice_patch, get3.
  rewrite (nth_map_fix _ _ _ []) by now rewrite skipn_nil, firstn_nil.
  rewrite (nth_map_fix _ _ _ []) by now destruct k.
  rewrite !nth_firstn, !nth_skipn.
  apply Nat.ltb_lt in Ha, Hb. now rewrite Ha, Hb.
Qed.

(** The window cut in the padded image always has the kernel's shape, so
    [patch * kernel] multiplies cell by cell (no broadcasting, no error). *)
Lemma slice_patch_rect (d : list (list (list R))) (h w c i m j n k : nat) :
  rect3 h w c d = true ->
  (i + m <= h)%nat -> (j + n <= w)%nat ->
  rect2 m n (slice_patch d i m j n k) = true.
Proof.
  rewrite rect3_spec, rect2_spec. intros [Hl Hrows] Hi Hj. unfold slice_patch.
  split; [rewrite length_map, length_firstn, length_skipn; lia|].
  intros a Ha.
  rewrite (nth_map_lt _ _ _ []) by (rewrite length_firstn, length_skipn; lia).
  rewrite length_map, length_firstn, length_skipn.
  rewrite nth_firstn, nth_skipn.
  apply Nat.ltb_lt in Ha. rewrite Ha.
  apply Nat.ltb_lt in Ha.
  destruct (Hrows (i + a)%nat) as [Hw _]; [lia|]. rewrite Hw. lia.
Qed.

Lemma patch_rect (img : ndarray3) (kernel : ndarray2) (i j k : nat) :
  wf3 img = true ->
  (i < ih img)%nat -> (j < iw img)%nat ->
  rect2 (kh kernel) (kw kernel)
        (slice_patch (idata (np_pad img (kh kernel / 2) (kw kernel / 2)))
                     i (kh kernel) j (kw kernel) k) = true.
Proof.
  intros Hwf Hi Hj.
  pose proof (np_pad_wf img (kh kernel / 2) (kw kernel / 2) Hwf) as Hp.
  unfold wf3 in Hp.
  pose proof (Nat.div_mod_eq (kh kernel) 2).
  pose proof (Nat.mod_upper_bound (kh kernel) 2).
  pose proof (Nat.div_mod_eq (kw kernel) 2).
  pose proof (Nat.mod_upper_bound (kw kernel) 2).
  eapply slice_patch_rect; [exact Hp| |]; cbn [ih iw np_pad]; lia.
Qed.

(** ** Casts *)

Lemma cast_to_float (d : dtype) (x : R) : d <> uint8 -> cast_to d x = x.
Proof. intros Hd. destruct d; [contradiction | reflexivity | reflexivity]. Qed.

Lemma promote_float64_r (d : dtype) : promote d float64 = float64.
Proof. now destruct d. Qed.

Lemma clip_bounds (y : R) : 0 <= Rmin (Rmax y 0) 255 <= 255.
Proof.
  split.
  - apply Rmin_glb; [apply Rmax_r | lra].
  - apply Rmin_r.
Qed.

Lemma Int_part_bounds (lo hi : Z) (x : R) :
  IZR lo <= x <= IZR hi -> (lo <= Int_part x <= hi)%Z.
Proof.
  intros [Hlo Hhi]. destruct (base_Int_part x) as [H1 H2]. split.
  - assert (H : IZR lo - 1 < IZR (Int_part x)) by lra.
    rewrite <- minus_IZR in H. apply lt_IZR in H. lia.
  - apply le_IZR. lra.
Qed.

Lemma Int_part_clip (y : R) : (0 <= Int_part (Rmin (Rmax y 0) 255) <= 255)%Z.
Proof. apply Int_part_bounds, clip_bounds. Qed.

Lemma Int_part_IZR (z : Z) : Int_part (IZR z) = z.
Proof. symmetry. apply Int_part_spec. lra. Qed.


(** After clipping, the cast to 8 bits is the integer part: nothing wraps. *)
Lemma cast_uint8_clip (y : R) :
  cast_to uint8 (Rmin (Rmax y 0) 255) = IZR (Int_part (Rmin (Rmax y 0) 255)).
Proof.
  unfold cast_to, Ztrunc. pose proof (clip_bounds y) as [H0 _].
  destruct (Rle_dec 0 (Rmin (Rmax y 0) 255)) as [_|Hn]; [|contradiction].
  rewrite Z.mod_small; [reflexivity|]. pose proof (Int_part_clip y). lia.
Qed.

(** ** [cross_correlation_2d] *)

Lemma cross_correlation_2d_wf (img : ndarray3) (kernel : ndarray2) :
  wf3 (cross_correlation_2d img kernel) = true.
Proof. unfold wf3, cross_correlation_2d; simpl. apply tabulate3_rect. Qed.

(** Every output sample is the sum over the window of the zero-extended
    image of the products with the kernel weights, each product stored in
    the common type of image and kernel; whatever the parity of the
    kernel's sides. *)
Lemma cross_correlation_2d_get_cast (img : ndarray3) (kernel : ndarray2) (i j k : nat) :
  wf3 img = true -> wf2 kernel = true ->
  (i < ih img)%nat -> (j < iw img)%nat -> (k < ic img)%nat ->
  get3 (idata (cross_correlation_2d img kernel)) i j k
  = bigsum (kh kernel) (fun a => bigsum (kw kernel) (fun b =>
      cast_to (promote (idtype img) (kdtype kernel))
        (padded_at img (kh kernel / 2) (kw kernel / 2) (i + a) (j + b) k
         * get2 (kdata kernel) a b))).
Proof.
  intros Hwf Hk Hi Hj Hc. unfold cross_correlation_2d; cbn [idata].
  rewrite tabulate3_get by assumption.
  rewrite (np_sum2_mul2 _ (kh kernel) (kw kernel));
    [| now apply patch_rect | exact Hk].
  apply bigsum_ext; intros a Ha. apply bigsum_ext; intros b Hb.
  rewrite slice_patch_get by assumption.
  now rewrite np_pad_get.
Qed.

(** Unless image and kernel are both 8-bit, the products are exact. *)
Lemma cross_correlation_2d_get (img : ndarray3) (kernel : ndarray2) (i j k : nat) :
  wf3 img = true -> wf2 kernel = true ->
  promote (idtype img) (kdtype kernel) <> uint8 ->
  (i < ih img)%nat -> (j < iw img)%nat -> (k < ic img)%nat ->
  get3 (idata (cross_correlation_2d img kernel)) i j k
  = bigsum (kh kernel) (fun a => bigsum (kw kernel) (fun b =>
      padded_at img (kh kernel / 2) (kw kernel / 2) (i + a) (j + b) k
      * get2 (kdata kernel) a b)).
Proof.
  intros Hwf Hk Hd Hi Hj Hc. rewrite cross_correlation_2d_get_cast by assumption.
  apply bigsum_ext; intros a Ha. apply bigsum_ext; intros b Hb.
  now apply cast_to_float.
Qed.

(** Away from the border the window lies inside the image. *)
Lemma padded_at_interior (img : ndarray3) (ph pw r c k : nat) :
  (ph <= r)%nat -> (r < ph + ih img)%nat ->
  (pw <= c)%nat -> (c < pw + iw img)%nat ->
  padded_at img ph pw r c k = get3 (idata img) (r - ph) (c - pw) k.
Proof.
  intros H1 H2 H3 H4. unfold padded_at.
  apply Nat.leb_le in H1, H3. apply Nat.ltb_lt in H2, H4.
  now rewrite H1, H2, H3, H4.
Qed.

Lemma cross_correlation_2d_interior (img : ndarray3) (kernel : ndarray2) (i j k : nat) :
  wf3 img = true -> wf2 kernel = true ->
  promote (idtype img) (kdtype kernel) <> uint8 ->
  (kh kernel / 2 <= i)%nat -> (i + kh kernel / 2 < ih img)%nat ->
  (kw kernel / 2 <= j)%nat -> (j + kw kernel / 2 < iw img)%nat ->
  (k < ic img)%nat ->
  get3 (idata (cross_correlation_2d img kernel)) i j k
  = bigsum (kh kernel) (fun a => bigsum (kw kernel) (fun b =>
      get3 (idata img) (i + a - kh kernel / 2) (j + b - kw kernel / 2) k
      * get2 (kdata kernel) a b)).
Proof.
  intros Hwf Hk Hd Hi1 Hi2 Hj1 Hj2 Hc.
  rewrite cross_correlation_2d_get by (try assumption; lia).
  pose proof (Nat.div_mod_eq (kh kernel) 2) as Hm.
  pose proof (Nat.mod_upper_bound (kh kernel) 2) as Hm'.
  pose proof (Nat.div_mod_eq (kw kernel) 2) as Hn.
  pose proof (Nat.mod_upper_bound (kw kernel) 2) as Hn'.
  apply bigsum_ext; intros a Ha. apply bigsum_ext; intros b Hb.
  rewrite padded_at_interior by lia. reflexivity.
Qed.

Example corr_centre :
  get3 (idata (cross_correlation_2d img_3x3 diag_3x3)) 1 1 0 = 38.
Proof. cbn. lra. Qed.

Example corr_corner :
  get3 (idata (cross_correlation_2d img_3x3 diag_3x3)) 0 0 0 = 17.
Proof. cbn. lra. Qed.

Example conv_corner :
  get3 (idata (convolve_2d img_3x3 diag_3x3)) 0 0 0 = 2 * 1 + 1 * 5.
Proof. cbn. lra. Qed.




(** ** [convolve_2d] *)

Lemma np_flip_wf (kernel : ndarray2) :
  wf2 kernel = true -> wf2 (np_flip kernel) = true.
Proof.
  unfold wf2, np_flip; cbn [kh kw kdata]. rewrite !rect2_spec.
  intros [Hl Hrows]. split; [now rewrite length_rev, length_map|].
  intros i Hi. rewrite rev_nth by (rewrite length_map; lia).
  rewrite length_map, (nth_map_lt _ _ _ []) by lia.
  rewrite length_rev. apply Hrows. lia.
Qed.

(** Cell (i, j) of the flipped kernel is cell (m-1-i, n-1-j) of the kernel. *)
Lemma np_flip_get (kernel : ndarray2) (i j : nat) :
  wf2 kernel = true ->
  (i < kh kernel)%nat -> (j < kw kernel)%nat ->
  get2 (kdata (np_flip kernel)) i j
  = get2 (kdata kernel) (kh kernel - 1 - i) (kw kernel - 1 - j).
Proof.
  unfold wf2, np_flip, get2; cbn [kdata]. rewrite rect2_spec.
  intros [Hl Hrows] Hi Hj.
  rewrite rev_nth by (rewrite length_map; lia).
  rewrite length_map, (nth_map_lt _ _ _ []) by lia.
  assert (Hrow : length (nth (length (kdata kernel) - S i) (kdata kernel) [])
                 = kw kernel) by (apply Hrows; lia).
  rewrite rev_nth by (rewrite Hrow; lia). rewrite Hrow, Hl.
  replace (kh kernel - S i)%nat with (kh kernel - 1 - i)%nat by lia.
  now replace (kw kernel - S j)%nat with (kw kernel - 1 - j)%nat by lia.
Qed.

(** Two well-shaped kernels of one type with the same cells are equal. *)
Lemma ndarray2_ext (k1 k2 : ndarray2) :
  wf2 k1 = true -> wf2 k2 = true ->
  kdtype k1 = kdtype k2 -> kh k1 = kh k2 -> kw k1 = kw k2 ->
  (forall i j, (i < kh k1)%nat -> (j < kw k1)%nat ->
     get2 (kdata k1) i j = get2 (kdata k2) i j) ->
  k1 = k2.
Proof.
  destruct k1 as [t m n d1], k2 as [t2 m2 n2 d2]; unfold wf2;
    cbn [kdtype kh kw kdata].
  rewrite !rect2_spec. intros [Hl1 Hr1] [Hl2 Hr2] <- <- <- Hget. f_equal.
  apply (nth_ext _ _ [] []); [lia|]. intros i Hi.
  apply (nth_ext _ _ 0 0).
  - rewrite Hr1, Hr2; lia.
  - intros j Hj. rewrite Hr1 in Hj by lia. apply Hget; lia.
Qed.

(** C5. [convolve_2d img K] is [cross_correlation_2d img (flip K)], where
    cell (i, j) of flip K is cell (m-1-i, n-1-j) of K; hence for a kernel
    that is symmetric under the 180-degree rotation, convolution and
    correlation give the same image. *)
Theorem convolve2D_is_correlate2D_of_flip
    (img : ndarray3) (kernel : ndarray2) (Hker : wf2 kernel = true) :
  convolve_2d img kernel = cross_correlation_2d img (np_flip kernel)
  /\ (kh (np_flip kernel), kw (np_flip kernel)) = (kh kernel, kw kernel)
  /\ (forall i j, (i < kh kernel)%nat -> (j < kw kernel)%nat ->
        get2 (kdata (np_flip kernel)) i j
        = get2 (kdata kernel) (kh kernel - 1 - i) (kw kernel - 1 - j))
  /\ ((forall i j, (i < kh kernel)%nat -> (j < kw kernel)%nat ->
         get2 (kdata kernel) i j
         = get2 (kdata kernel) (kh kernel - 1 - i) (kw kernel - 1 - j)) ->
      convolve_2d img kernel = cross_correlation_2d img kernel).
Proof.
  repeat split.
  - intros i j Hi Hj. now apply np_flip_get.
  - intros Hsym. unfold convolve_2d. f_equal.
    apply ndarray2_ext; try reflexivity; [now apply np_flip_wf | exact Hker |].
    cbn [kh kw np_flip]. intros i j Hi Hj.
    rewrite np_flip_get by assumption. symmetry. now apply Hsym.
Qed.

Lemma convolve2D_is_correlate2D_of_flip_witness :
  wf2 diag_3x3 = true
  /\ convolve_2d img_3x3 diag_3x3
     = cross_correlation_2d img_3x3 (np_flip diag_3x3).
Proof.
  split; [reflexivity|].
  exact (proj1 (convolve2D_is_correlate2D_of_flip img_3x3 diag_3x3 eq_refl)).
Defined.

(** ** [gaussian_blur_kernel_2d] *)

Lemma mapM_seq {B : Type} (f : nat -> result B) (g : nat -> B) (s n : nat) :
  (forall i, (s <= i < s + n)%nat -> f i = Ok (g i)) ->
  mapM f (seq s n) = Ok (map g (seq s n)).
Proof.
  revert s. induction n as [|n IH]; intros s H; [reflexivity|].
  simpl. rewrite (H s) by lia. simpl.
  rewrite IH by (intros i Hi; apply H; lia). reflexivity.
Qed.

Lemma mapM_tabulate {B : Type} (f : nat -> result B) (g : nat -> B) (n : nat) :
  (forall i, (i < n)%nat -> f i = Ok (g i)) ->
  mapM f (seq 0 n) = Ok (tabulate n g).
Proof. intros H. apply mapM_seq. intros i Hi. apply H. lia. Qed.

(** The first exception interrupts the loop. *)
Lemma mapM_raise_first {B : Type} (f : nat -> result B) (e : pyexn) (s n : nat) :
  f s = Raise e -> mapM f (seq s (S n)) = Raise e.
Proof. intros H. simpl. now rewrite H. Qed.

Lemma gaussian_entry_ok (sigma : R) (h w : Z) (i j : nat) :
  sigma_in_range sigma ->
  gaussian_entry sigma (h / 2) (w / 2) i j = Ok (gauss_weight sigma h w i j).
Proof.
  intros [Hlo Hhi]. unfold gaussian_entry, gauss_weight.
  destruct (Rle_dec sq_overflow (sigma ^ 2)) as [H|_]; [lra|].
  destruct (Rle_dec (sigma ^ 2) sq_underflow) as [H|_]; [lra|].
  now rewrite opp_IZR.
Qed.

Lemma gauss_weight_pos (sigma : R) (h w : Z) (i j : nat) :
  0 < gauss_weight sigma h w i j.
Proof. apply exp_pos. Qed.

Lemma gauss_table_rect (sigma : R) (h w : Z) :
  rect2 (Z.to_nat h) (Z.to_nat w) (gauss_table sigma h w) = true.
Proof.
  apply rect2_spec. unfold gauss_table. split; [apply tabulate_length|].
  intros i Hi. rewrite tabulate_nth by lia. apply tabulate_length.
Qed.

Lemma gauss_table_get (sigma : R) (h w : Z) (i j : nat) :
  (i < Z.to_nat h)%nat -> (j < Z.to_nat w)%nat ->
  get2 (gauss_table sigma h w) i j = gauss_weight sigma h w i j.
Proof.
  intros Hi Hj. unfold get2, gauss_table. now rewrite !tabulate_nth by lia.
Qed.

Lemma gauss_table_total (sigma : R) (h w : Z) :
  np_sum2 (gauss_table sigma h w)
  = bigsum (Z.to_nat h) (fun i => bigsum (Z.to_nat w) (gauss_weight sigma h w i)).
Proof.
  rewrite (np_sum2_get _ _ _ (gauss_table_rect sigma h w)).
  apply bigsum_ext; intros i Hi. apply bigsum_ext; intros j Hj.
  now apply gauss_table_get.
Qed.

Lemma gauss_table_total_pos (sigma : R) (h w : Z) :
  (0 < h)%Z -> (0 < w)%Z -> 0 < np_sum2 (gauss_table sigma h w).
Proof.
  intros Hh Hw. rewrite gauss_table_total.
  apply bigsum_pos; [lia|]. intros i _.
  apply bigsum_pos; [lia|]. intros j _. apply gauss_weight_pos.
Qed.

(** What the function returns whenever it does not raise: the table of
    weights divided by its total. *)
Lemma gaussian_blur_kernel_2d_returns (sigma : R) (h w : Z) :
  sigma_in_range sigma -> (0 <= h)%Z -> (0 <= w)%Z ->
  gaussian_blur_kernel_2d sigma h w = Ok (gauss_kernel sigma h w).
Proof.
  intros Hs Hh Hw. unfold gaussian_blur_kernel_2d, gauss_kernel.
  replace ((h <? 0) || (w <? 0))%Z%bool with false
    by (symmetry; apply orb_false_iff; split; apply Z.ltb_ge; lia).
  rewrite (mapM_tabulate _
             (fun i => tabulate (Z.to_nat w) (gauss_weight sigma h w i))).
  - reflexivity.
  - intros i _. apply mapM_tabulate. intros j _. now apply gaussian_entry_ok.
Qed.

Lemma scaled_rect (m n : nat) (f : R -> R) (d : list (list R)) :
  rect2 m n d = true -> rect2 m n (map (map f) d) = true.
Proof.
  rewrite !rect2_spec. intros [Hl Hrows]. split; [now rewrite length_map|].
  intros i Hi. rewrite (nth_map_lt _ _ _ []) by lia.
  rewrite length_map. now apply Hrows.
Qed.

Lemma scaled_get (m n : nat) (f : R -> R) (d : list (list R)) (i j : nat) :
  rect2 m n d = true -> (i < m)%nat -> (j < n)%nat ->
  get2 (map (map f) d) i j = f (get2 d i j).
Proof.
  rewrite rect2_spec. intros [Hl Hrows] Hi Hj. unfold get2.
  rewrite (nth_map_lt _ _ _ []) by lia.
  apply nth_map_lt. rewrite Hrows; lia.
Qed.

Lemma gauss_kernel_wf (sigma : R) (h w : Z) : wf2 (gauss_kernel sigma h w) = true.
Proof.
  unfold wf2, gauss_kernel; cbn [kh kw kdata].
  apply scaled_rect, gauss_table_rect.
Qed.

Section GaussianKernel.

Variables (sigma : R) (h w : Z).
Hypothesis h_pos : (0 < h)%Z.
Hypothesis w_pos : (0 < w)%Z.

Lemma gaussian_get (i j : nat) :
  (i < Z.to_nat h)%nat -> (j < Z.to_nat w)%nat ->
  get2 (kdata (gauss_kernel sigma h w)) i j
  = / np_sum2 (gauss_table sigma h w) * gauss_weight sigma h w i j.
Proof.
  intros Hi Hj. unfold gauss_kernel; cbn [kdata].
  rewrite (scaled_get _ _ _ _ _ _ (gauss_table_rect sigma h w)) by assumption.
  rewrite gauss_table_get by assumption. unfold Rdiv. apply Rmult_comm.
Qed.

Lemma gaussian_sums_to_1 : np_sum2 (kdata (gauss_kernel sigma h w)) = 1.
Proof.
  pose proof (gauss_table_total_pos sigma h w h_pos w_pos) as Hpos.
  rewrite (np_sum2_get _ _ _ (gauss_kernel_wf sigma h w)).
  cbn [kh kw gauss_kernel].
  rewrite (bigsum_ext _ _
             (fun i => bigsum (Z.to_nat w) (gauss_weight sigma h w i)
                       * / np_sum2 (gauss_table sigma h w))).
  - rewrite bigsum_scale. rewrite <- gauss_table_total.
    apply Rinv_r. lra.
  - intros i Hi. rewrite <- bigsum_scale.
    apply bigsum_ext; intros j Hj. rewrite gaussian_get by assumption.
    apply Rmult_comm.
Qed.

(** With odd sides the centre cell is the middle of the table, and the
    weights are unchanged by the half-turn about it. *)
Lemma gauss_weight_half_turn (i j : nat) :
  Z.odd h = true -> Z.odd w = true ->
  (i < Z.to_nat h)%nat -> (j < Z.to_nat w)%nat ->
  gauss_weight sigma h w (Z.to_nat h - 1 - i) (Z.to_nat w - 1 - j)
  = gauss_weight sigma h w i j.
Proof.
  intros Hoh How Hi Hj. unfold gauss_weight. do 3 f_equal.
  rewrite !Nat2Z.inj_sub, !Z2Nat.id by lia.
  pose proof (Z.div_mod h 2 ltac:(lia)) as Eh.
  pose proof (Z.div_mod w 2 ltac:(lia)) as Ew.
  rewrite Zmod_odd, Hoh in Eh. rewrite Zmod_odd, How in Ew.
  replace (h - Z.of_nat 1 - Z.of_nat i - h / 2)%Z
    with (- (Z.of_nat i - h / 2))%Z by lia.
  replace (w - Z.of_nat 1 - Z.of_nat j - w / 2)%Z
    with (- (Z.of_nat j - w / 2))%Z by lia.
  now rewrite !Z.pow_opp_even by (now exists 1%Z).
Qed.

Lemma gaussian_half_turn (i j : nat) :
  Z.odd h = true -> Z.odd w = true ->
  (i < Z.to_nat h)%nat -> (j < Z.to_nat w)%nat ->
  get2 (kdata (gauss_kernel sigma h w)) (Z.to_nat h - 1 - i) (Z.to_nat w - 1 - j)
  = get2 (kdata (gauss_kernel sigma h w)) i j.
Proof.
  intros Hoh How Hi Hj.
  rewrite !gaussian_get by lia. now rewrite gauss_weight_half_turn.
Qed.

(** The kernel is its own flip. *)
Lemma gaussian_flip :
  Z.odd h = true -> Z.odd w = true ->
  np_flip (gauss_kernel sigma h w) = gauss_kernel sigma h w.
Proof.
  intros Hoh How.
  apply ndarray2_ext; try reflexivity;
    [apply np_flip_wf, gauss_kernel_wf | apply gauss_kernel_wf |].
  cbn [kh kw np_flip gauss_kernel]. intros i j Hi Hj.
  rewrite np_flip_get by (apply gauss_kernel_wf || assumption).
  cbn [kh kw gauss_kernel]. now apply gaussian_half_turn.
Qed.

End GaussianKernel.

(** Integers whose square is below 2^1024 are in range. *)
Lemma sigma_in_range_IZR (z : Z) :
  (0 < z ^ 2)%Z -> (z ^ 2 < 2 ^ 1024)%Z -> sigma_in_range (IZR z).
Proof.
  intros Hlo Hhi. unfold sigma_in_range, sq_underflow, sq_overflow.
  change 2%nat with (Z.to_nat 2) at 1 2.
  rewrite pow_IZR. change (Z.of_nat (Z.to_nat 2)) with 2%Z. split.
  - apply Rlt_le_trans with 1.
    + rewrite <- Rinv_1. apply Rinv_lt_contravar.
      * rewrite Rmult_1_l. apply IZR_lt. reflexivity.
      * apply IZR_lt. reflexivity.
    + apply IZR_le. lia.
  - now apply IZR_lt.
Qed.

Lemma sigma_in_range_1 : sigma_in_range 1.
Proof. apply (sigma_in_range_IZR 1); reflexivity. Qed.

Lemma sigma_in_range_2 : sigma_in_range 2.
Proof. apply (sigma_in_range_IZR 2); reflexivity. Qed.

(** A negative sigma has the square of its absolute value. *)
Lemma sigma_in_range_opp (sigma : R) :
  sigma_in_range (- sigma) <-> sigma_in_range sigma.
Proof.
  unfold sigma_in_range. now replace ((- sigma) ^ 2) with (sigma ^ 2) by ring.
Qed.

(** As soon as there is a cell to fill, a square that overflows ends the
    call. *)
Lemma gaussian_blur_kernel_2d_overflow (sigma : R) (h w : Z) :
  sq_overflow <= sigma ^ 2 -> (0 < h)%Z -> (0 < w)%Z ->
  gaussian_blur_kernel_2d sigma h w = Raise OverflowError.
Proof.
  intros Hs Hh Hw. unfold gaussian_blur_kernel_2d.
  replace ((h <? 0) || (w <? 0))%Z%bool with false
    by (symmetry; apply orb_false_iff; split; apply Z.ltb_ge; lia).
  destruct (Z.to_nat h) as [|m] eqn:Em; [lia|].
  destruct (Z.to_nat w) as [|n] eqn:En; [lia|].
  rewrite (mapM_raise_first _ OverflowError); [reflexivity|].
  apply mapM_raise_first. unfold gaussian_entry.
  destruct (Rle_dec sq_overflow (sigma ^ 2)) as [_|H]; [reflexivity | contradiction].
Qed.

(** ... and a square that is 0.0 divides by zero. *)
Lemma gaussian_blur_kernel_2d_underflow (sigma : R) (h w : Z) :
  sigma ^ 2 <= sq_underflow -> (0 < h)%Z -> (0 < w)%Z ->
  gaussian_blur_kernel_2d sigma h w = Raise ZeroDivisionError.
Proof.
  intros Hs Hh Hw. unfold gaussian_blur_kernel_2d.
  replace ((h <? 0) || (w <? 0))%Z%bool with false
    by (symmetry; apply orb_false_iff; split; apply Z.ltb_ge; lia).
  destruct (Z.to_nat h) as [|m] eqn:Em; [lia|].
  destruct (Z.to_nat w) as [|n] eqn:En; [lia|].
  assert (Hlt : sq_underflow < sq_overflow).
  { unfold sq_underflow, sq_overflow. apply Rlt_trans with 1.
    - rewrite <- Rinv_1. apply Rinv_lt_contravar.
      + rewrite Rmult_1_l. apply IZR_lt. reflexivity.
      + apply IZR_lt. reflexivity.
    - apply IZR_lt. reflexivity. }
  rewrite (mapM_raise_first _ ZeroDivisionError); [reflexivity|].
  apply mapM_raise_first. unfold gaussian_entry.
  destruct (Rle_dec sq_overflow (sigma ^ 2)) as [H|_]; [lra|].
  destruct (Rle_dec (sigma ^ 2) sq_underflow) as [_|H]; [reflexivity | contradiction].
Qed.





(** ** Elementwise operations *)

Lemma broadcast_dim_same (n : nat) : broadcast_dim n n = Ok n.
Proof. unfold broadcast_dim. now rewrite Nat.eqb_refl. Qed.

Lemma bidx_lt (n i : nat) : (i < n)%nat -> bidx n i = i.
Proof.
  intros Hi. unfold bidx. destruct (Nat.eqb_spec n 1); [lia | reflexivity].
Qed.

(** On arrays of one shape the operation works sample by sample. *)
Lemma np_binop_same_shape (f : R -> R -> R) (a b : ndarray3) :
  ih a = ih b -> iw a = iw b -> ic a = ic b ->
  np_binop f a b
  = Ok (mkArr3 (promote (idtype a) (idtype b)) (ih a) (iw a) (ic a)
          (tabulate3 (ih a) (iw a) (ic a) (fun i j k =>
             cast_to (promote (idtype a) (idtype b))
                     (f (get3 (idata a) i j k) (get3 (idata b) i j k))))).
Proof.
  intros Hh Hw Hc. unfold np_binop.
  rewrite <- Hh, <- Hw, <- Hc, !broadcast_dim_same. cbn [bind]. do 2 f_equal.
  apply tabulate3_ext. intros i j k Hi Hj Hk. now rewrite !bidx_lt.
Qed.


(** ** [low_pass] and [high_pass] *)

Section Filters.

Variables (img : ndarray3) (sigma : R) (size : Z).
Hypothesis img_wf : wf3 img = true.
Hypothesis sigma_ok : sigma_in_range sigma.
Hypothesis size_nonneg : (0 <= size)%Z.

Lemma low_pass_returns :
  low_pass img sigma size
  = Ok (cross_correlation_2d img (gauss_kernel sigma size size)).
Proof.
  unfold low_pass. now rewrite gaussian_blur_kernel_2d_returns.
Qed.

Lemma high_pass_returns :
  high_pass img sigma size
  = Ok (mkArr3 float64 (ih img) (iw img) (ic img)
          (tabulate3 (ih img) (iw img) (ic img) (fun i j k =>
             get3 (idata img) i j k
             - get3 (idata (cross_correlation_2d img (gauss_kernel sigma size size)))
                    i j k))).
Proof.
  unfold high_pass. rewrite low_pass_returns. cbn [bind]. unfold np_sub.
  rewrite np_binop_same_shape by reflexivity. cbn [bind].
  replace (promote (idtype img)
             (idtype (cross_correlation_2d img (gauss_kernel sigma size size))))
    with float64 by (cbn; now destruct (idtype img)).
  reflexivity.
Qed.


End Filters.

(** The filters end with the exception of the kernel construction. *)
Lemma low_pass_raises (img : ndarray3) (sigma : R) (size : Z) (e : pyexn) :
  gaussian_blur_kernel_2d sigma size size = Raise e ->
  low_pass img sigma size = Raise e.
Proof. intros H. unfold low_pass. now rewrite H. Qed.

Lemma high_pass_raises (img : ndarray3) (sigma : R) (size : Z) (e : pyexn) :
  gaussian_blur_kernel_2d sigma size size = Raise e ->
  high_pass img sigma size = Raise e.
Proof.
  intros H. unfold high_pass. now rewrite (low_pass_raises _ _ _ _ H).
Qed.




(** ** Arguments that the filters do not check *)

Lemma gaussian_blur_kernel_2d_negative (sigma : R) (h w : Z) :
  (h < 0)%Z \/ (w < 0)%Z -> gaussian_blur_kernel_2d sigma h w = Raise ValueError.
Proof.
  intros H. unfold gaussian_blur_kernel_2d.
  replace ((h <? 0) || (w <? 0))%Z%bool with true; [reflexivity|].
  symmetry. apply orb_true_iff. destruct H; [left|right]; now apply Z.ltb_lt.
Qed.

Lemma sq_underflow_pos : 0 < sq_underflow.
Proof.
  unfold sq_underflow. apply Rinv_0_lt_compat. apply IZR_lt. reflexivity.
Qed.

Lemma gaussian_blur_kernel_2d_sigma_0 (h w : Z) :
  (0 < h)%Z -> (0 < w)%Z ->
  gaussian_blur_kernel_2d 0 h w = Raise ZeroDivisionError.
Proof.
  intros Hh Hw. apply gaussian_blur_kernel_2d_underflow; [|assumption..].
  pose proof sq_underflow_pos. replace (0 ^ 2) with 0 by ring. lra.
Qed.

(** Only sigma squared enters the weights. *)
Lemma gaussian_blur_kernel_2d_opp (sigma : R) (h w : Z) :
  gaussian_blur_kernel_2d (- sigma) h w = gaussian_blur_kernel_2d sigma h w.
Proof.
  unfold gaussian_blur_kernel_2d, gaussian_entry.
  now replace ((- sigma) ^ 2) with (sigma ^ 2) by ring.
Qed.

Lemma low_pass_shape (img : ndarray3) (sigma : R) (size : Z) (lp : ndarray3) :
  low_pass img sigma size = Ok lp ->
  idtype lp = float64 /\ (ih lp, iw lp, ic lp) = (ih img, iw img, ic img)
  /\ wf3 lp = true.
Proof.
  unfold low_pass.
  destruct (gaussian_blur_kernel_2d sigma size size) as [K|e]; [|discriminate].
  cbn [bind]. intros [= <-]. repeat split. apply cross_correlation_2d_wf.
Qed.

(** [high_pass] fails exactly when [low_pass] does: the subtraction is
    between arrays of one shape. *)
Lemma high_pass_of_low_pass (img : ndarray3) (sigma : R) (size : Z) :
  match low_pass img sigma size with
  | Ok lp =>
      high_pass img sigma size
      = Ok (mkArr3 float64 (ih img) (iw img) (ic img)
              (tabulate3 (ih img) (iw img) (ic img) (fun i j k =>
                 get3 (idata img) i j k - get3 (idata lp) i j k)))
  | Raise e => high_pass img sigma size = Raise e
  end.
Proof.
  unfold high_pass.
  destruct (low_pass img sigma size) as [lp|e] eqn:Hlp; [|reflexivity].
  destruct (low_pass_shape _ _ _ _ Hlp) as [Hd [[= Hh Hw Hc] _]].
  cbn [bind]. unfold np_sub.
  rewrite np_binop_same_shape by congruence. cbn [bind].
  rewrite Hd. replace (promote (idtype img) float64) with float64
    by now destruct (idtype img).
  reflexivity.
Qed.

Lemma high_pass_shape (img : ndarray3) (sigma : R) (size : Z) (hp : ndarray3) :
  high_pass img sigma size = Ok hp ->
  idtype hp = float64 /\ (ih hp, iw hp, ic hp) = (ih img, iw img, ic img)
  /\ wf3 hp = true.
Proof.
  pose proof (high_pass_of_low_pass img sigma size) as H.
  destruct (low_pass img sigma size) as [lp|e]; rewrite H; [|discriminate].
  intros [= <-]. repeat split. apply tabulate3_rect.
Qed.

(** C7, as stated, fails: [gaussian_blur_kernel_2d 1.0 4 5] returns a
    4 x 5 kernel, and correlating with a 2 x 2 kernel returns an image
    (pads 1 and 1; the top-left sample sees only the image's first pixel,
    under the kernel's last cell). *)
Lemma even_kernel_is_not_rejected :
  (exists K : ndarray2,
     gaussian_blur_kernel_2d 1 4 5 = Ok K /\ (kh K, kw K) = (4%nat, 5%nat))
  /\ get3 (idata (cross_correlation_2d img_3x3 ramp_2x2)) 0 0 0 = 4.
Proof.
  split.
  - exists (gauss_kernel 1 4 5). split; [|reflexivity].
    apply gaussian_blur_kernel_2d_returns; [exact sigma_in_range_1 | lia | lia].
  - cbn. lra.
Qed.

(** C7, amended.  The parity of the kernel's sides is never checked.  For
    sigma > 0 whose square is a positive binary64 number and positive h
    and w of which one is even, [gaussian_blur_kernel_2d] returns the
    normalised h x w kernel (its cells sum to 1 within 1e-9) whose weights
    are centred on cell (h//2, w//2); and [cross_correlation_2d] with any
    kernel of such a shape returns an image of the input's shape whose
    samples are the sums, over the window of the image framed by h//2 zero
    rows and w//2 zero columns on each side, of the products with the
    kernel weights in the common type of image and kernel (the plain
    weighted sums unless both are 8-bit). *)
Theorem even_kernel_sides_are_accepted
    (sigma : R) (h w : Z)
    (Hsigma : 0 < sigma) (Hrange : sigma_in_range sigma)
    (Hh : (0 < h)%Z) (Hw : (0 < w)%Z)
    (Heven : Z.even h = true \/ Z.even w = true) :
  (exists K : ndarray2,
     gaussian_blur_kernel_2d sigma h w = Ok K
     /\ wf2 K = true
     /\ (Z.of_nat (kh K), Z.of_nat (kw K)) = (h, w)
     /\ (exists c : R, 0 < c /\
           forall i j, (i < kh K)%nat -> (j < kw K)%nat ->
             get2 (kdata K) i j
             = c * exp (- IZR ((Z.of_nat i - h / 2) ^ 2 + (Z.of_nat j - w / 2) ^ 2)
                        / (2 * sigma ^ 2)))
     /\ Rabs (np_sum2 (kdata K) - 1) <= 1e-9)
  /\ (forall (img : ndarray3) (kernel : ndarray2),
        wf3 img = true -> wf2 kernel = true ->
        (Z.of_nat (kh kernel), Z.of_nat (kw kernel)) = (h, w) ->
        let out := cross_correlation_2d img kernel in
        let d := promote (idtype img) (kdtype kernel) in
        (ih out, iw out, ic out) = (ih img, iw img, ic img)
        /\ wf3 out = true
        /\ (forall i j k, (i < ih img)%nat -> (j < iw img)%nat -> (k < ic img)%nat ->
             get3 (idata out) i j k
             = bigsum (kh kernel) (fun a => bigsum (kw kernel) (fun b =>
                 cast_to d
                   (padded_at img (kh kernel / 2) (kw kernel / 2) (i + a) (j + b) k
                    * get2 (kdata kernel) a b))))
        /\ (d <> uint8 ->
            forall i j k, (i < ih img)%nat -> (j < iw img)%nat -> (k < ic img)%nat ->
             get3 (idata out) i j k
             = bigsum (kh kernel) (fun a => bigsum (kw kernel) (fun b =>
                 padded_at img (kh kernel / 2) (kw kernel / 2) (i + a) (j + b) k
                 * get2 (kdata kernel) a b)))).
Proof.
  split.
  - exists (gauss_kernel sigma h w).
    split; [apply gaussian_blur_kernel_2d_returns; [assumption | lia | lia]|].
    split; [apply gauss_kernel_wf|].
    split; [cbn [kh kw gauss_kernel]; now rewrite !Z2Nat.id by lia|].
    split.
    + exists (/ np_sum2 (gauss_table sigma h w)). split.
      * apply Rinv_0_lt_compat. now apply gauss_table_total_pos.
      * intros i j Hi Hj. now apply gaussian_get.
    + rewrite gaussian_sums_to_1 by assumption.
      replace (1 - 1) with 0 by lra. rewrite Rabs_R0. lra.
  - intros img kernel Himg Hker _ out d. split; [reflexivity|].
    split; [apply cross_correlation_2d_wf|]. split.
    + intros i j k Hi Hj Hk. now apply cross_correlation_2d_get_cast.
    + intros Hd i j k Hi Hj Hk. now apply cross_correlation_2d_get.
Qed.

Lemma even_kernel_sides_are_accepted_witness :
  0 < 1 /\ sigma_in_range 1 /\ (0 < 4)%Z /\ (0 < 5)%Z
  /\ (Z.even 4 = true \/ Z.even 5 = true)
  /\ exists K : ndarray2,
       gaussian_blur_kernel_2d 1 4 5 = Ok K
       /\ (Z.of_nat (kh K), Z.of_nat (kw K)) = (4, 5)%Z.
Proof.
  split; [lra|]. split; [exact sigma_in_range_1|].
  split; [reflexivity|]. split; [reflexivity|].
  split; [left; reflexivity|].
  destruct (proj1 (even_kernel_sides_are_accepted 1 4 5
                     ltac:(lra) sigma_in_range_1 eq_refl eq_refl
                     (or_introl eq_refl)))
    as [K [Hret [_ [Hshape _]]]].
  exists K. split; assumption.
Defined.

(** C8, as stated, fails: an even size and a negative sigma are both
    accepted, and an image is returned. *)
Lemma invalid_filter_parameters_are_not_rejected :
  (exists lp : ndarray3, low_pass img_3x3 1 2 = Ok lp)
  /\ (exists hp : ndarray3, high_pass img_3x3 (-1) 3 = Ok hp).
Proof.
  split.
  - eexists. apply low_pass_returns; [exact sigma_in_range_1 | lia].
  - eexists. apply high_pass_returns; [|lia].
    apply (sigma_in_range_IZR (-1)); reflexivity.
Qed.

(** C8, amended.  [low_pass] and [high_pass] check neither argument.
    When size is not a positive odd integer or sigma is not strictly
    positive, they raise only through the kernel construction -- ValueError
    for a negative size and, with a positive size, OverflowError when the
    square of sigma reaches 2^1024 and ZeroDivisionError when it is at
    most 2^-1075, as for sigma = 0 -- and in every other case (size 0, or
    an even size or a negative sigma with a square in the binary64 range)
    they return an image of the input's shape; a negative sigma gives
    the result of its absolute value. *)
Theorem filters_do_not_validate_parameters
    (img : ndarray3) (sigma : R) (size : Z)
    (Himg : wf3 img = true)
    (Hinvalid : ~ (0 < sigma /\ (0 < size)%Z /\ Z.odd size = true)) :
  ((size < 0)%Z ->
     low_pass img sigma size = Raise ValueError
     /\ high_pass img sigma size = Raise ValueError)
  /\ ((0 < size)%Z -> sq_overflow <= sigma ^ 2 ->
     low_pass img sigma size = Raise OverflowError
     /\ high_pass img sigma size = Raise OverflowError)
  /\ ((0 < size)%Z -> sigma ^ 2 <= sq_underflow ->
     low_pass img sigma size = Raise ZeroDivisionError
     /\ high_pass img sigma size = Raise ZeroDivisionError)
  /\ ((0 < size)%Z -> sigma = 0 ->
     low_pass img sigma size = Raise ZeroDivisionError
     /\ high_pass img sigma size = Raise ZeroDivisionError)
  /\ (size = 0%Z \/ ((0 < size)%Z /\ sigma_in_range sigma) ->
     exists lp hp : ndarray3,
       low_pass img sigma size = Ok lp
       /\ high_pass img sigma size = Ok hp
       /\ (ih lp, iw lp, ic lp) = (ih img, iw img, ic img)
       /\ (ih hp, iw hp, ic hp) = (ih img, iw img, ic img)
       /\ wf3 lp = true /\ wf3 hp = true)
  /\ low_pass img (- sigma) size = low_pass img sigma size
  /\ high_pass img (- sigma) size = high_pass img sigma size.
Proof.
  assert (Hraise : forall e, gaussian_blur_kernel_2d sigma size size = Raise e ->
            low_pass img sigma size = Raise e
            /\ high_pass img sigma size = Raise e).
  { intros e He. split; [now apply low_pass_raises | now apply high_pass_raises]. }
  assert (Hok : forall lp, low_pass img sigma size = Ok lp ->
            exists lp hp : ndarray3,
              low_pass img sigma size = Ok lp
              /\ high_pass img sigma size = Ok hp
              /\ (ih lp, iw lp, ic lp) = (ih img, iw img, ic img)
              /\ (ih hp, iw hp, ic hp) = (ih img, iw img, ic img)
              /\ wf3 lp = true /\ wf3 hp = true).
  { intros lp Hlp. pose proof (high_pass_of_low_pass img sigma size) as H.
    rewrite Hlp in H.
    destruct (low_pass_shape _ _ _ _ Hlp) as [_ [Hshape Hwf]].
    destruct (high_pass_shape _ _ _ _ H) as [_ [Hshape' Hwf']].
    exists lp. eexists. split; [exact Hlp|]. split; [exact H|].
    split; [exact Hshape|]. split; [exact Hshape'|].
    split; [exact Hwf | exact Hwf']. }
  split; [|split; [|split; [|split; [|split; [|split]]]]].
  - intros Hneg. apply Hraise, gaussian_blur_kernel_2d_negative. now left.
  - intros Hpos Hs. now apply Hraise, gaussian_blur_kernel_2d_overflow.
  - intros Hpos Hs. now apply Hraise, gaussian_blur_kernel_2d_underflow.
  - intros Hpos ->. now apply Hraise, gaussian_blur_kernel_2d_sigma_0.
  - intros [-> | [Hpos Hs]].
    + apply (Hok (cross_correlation_2d img (mkArr2 float64 0 0 []))). reflexivity.
    + apply (Hok (cross_correlation_2d img (gauss_kernel sigma size size))).
      apply low_pass_returns; [assumption | lia].
  - unfold low_pass. now rewrite gaussian_blur_kernel_2d_opp.
  - unfold high_pass, low_pass. now rewrite gaussian_blur_kernel_2d_opp.
Qed.

Lemma filters_do_not_validate_parameters_witness :
  wf3 img_3x3 = true
  /\ ~ (0 < 1 /\ (0 < 2)%Z /\ Z.odd 2 = true)
  /\ exists lp hp : ndarray3,
       low_pass img_3x3 1 2 = Ok lp /\ high_pass img_3x3 1 2 = Ok hp.
Proof.
  assert (Hinvalid : ~ (0 < 1 /\ (0 < 2)%Z /\ Z.odd 2 = true)).
  { intros [_ [_ H]]. discriminate H. }
  split; [reflexivity|]. split; [exact Hinvalid|].
  destruct (proj1 (proj2 (proj2 (proj2 (proj2
              (filters_do_not_validate_parameters
                 img_3x3 1 2 eq_refl Hinvalid))))))
    as [lp [hp [Hlp [Hhp _]]]].
  - right. split; [reflexivity | exact sigma_in_range_1].
  - exists lp, hp. split; assumption.
Defined.

(** ** [create_hybrid_image] *)

(** The function is its three stages in sequence. *)
Lemma create_hybrid_image_stages (img1 img2 : ndarray3)
    (sigma1 : R) (size1 : Z) (high_low1 : string)
    (sigma2 : R) (size2 : Z) (high_low2 : string) (mixin_ratio scale_factor : R) :
  create_hybrid_image img1 img2 sigma1 size1 high_low1 sigma2 size2 high_low2
                      mixin_ratio scale_factor
  = hybrid_after_normalisation
      (fst (normalise_pair img1 img2)) (snd (normalise_pair img1 img2))
      sigma1 size1 high_low1 sigma2 size2 high_low2 mixin_ratio scale_factor.
Proof.
  unfold create_hybrid_image, hybrid_after_normalisation, normalise_pair,
    filter_of_mode, mix_and_quantise.
  destruct (dtype_eqb (idtype img1) uint8); cbn [fst snd];
    destruct (String.eqb (lower high_low1) "low");
    destruct (String.eqb (lower high_low2) "low"); reflexivity.
Qed.

Lemma filter_of_mode_shape (mode : string) (n : ndarray3) (sigma : R) (size : Z)
    (f : ndarray3) :
  filter_of_mode mode n sigma size = Ok f ->
  idtype f = float64 /\ (ih f, iw f, ic f) = (ih n, iw n, ic n) /\ wf3 f = true.
Proof.
  unfold filter_of_mode. destruct (String.eqb (lower mode) "low").
  - apply low_pass_shape.
  - apply high_pass_shape.
Qed.

(** Whatever the mode, the filter fails exactly when the kernel
    construction does. *)
Lemma filter_of_mode_raised (mode : string) (n : ndarray3) (sigma : R) (size : Z) :
  raised (filter_of_mode mode n sigma size)
  = raised (gaussian_blur_kernel_2d sigma size size).
Proof.
  unfold filter_of_mode. destruct (String.eqb (lower mode) "low").
  - unfold low_pass. now destruct (gaussian_blur_kernel_2d sigma size size).
  - pose proof (high_pass_of_low_pass n sigma size) as H.
    unfold low_pass in H.
    destruct (gaussian_blur_kernel_2d sigma size size); cbn [bind] in H;
      now rewrite H.
Qed.

Lemma filter_of_mode_returns (mode : string) (n : ndarray3) (sigma : R) (size : Z) :
  sigma_in_range sigma -> (0 <= size)%Z ->
  exists f, filter_of_mode mode n sigma size = Ok f.
Proof.
  intros Hs Hz. pose proof (filter_of_mode_raised mode n sigma size) as H.
  rewrite gaussian_blur_kernel_2d_returns in H by assumption.
  destruct (filter_of_mode mode n sigma size) as [f|e]; [now exists f | discriminate].
Qed.

Lemma np_binop_shape (f : R -> R -> R) (a b : ndarray3) :
  match broadcast_shape a b with
  | Ok (h, w, c) =>
      exists r, np_binop f a b = Ok r
                /\ idtype r = promote (idtype a) (idtype b)
                /\ (ih r, iw r, ic r) = (h, w, c)
  | Raise e => e = ValueError /\ np_binop f a b = Raise ValueError
  end.
Proof.
  unfold broadcast_shape, np_binop.
  assert (Hdim : forall x y, match broadcast_dim x y with
                             | Ok _ => True | Raise e => e = ValueError end).
  { intros x y. unfold broadcast_dim.
    destruct (x =? y)%nat, (x =? 1)%nat, (y =? 1)%nat; trivial. }
  pose proof (Hdim (ih a) (ih b)) as H1.
  pose proof (Hdim (iw a) (iw b)) as H2.
  pose proof (Hdim (ic a) (ic b)) as H3.
  destruct (broadcast_dim (ih a) (ih b)) as [h|e1]; cbn [bind];
    [|subst; now split].
  destruct (broadcast_dim (iw a) (iw b)) as [w|e2]; cbn [bind];
    [|subst; now split].
  destruct (broadcast_dim (ic a) (ic b)) as [c|e3]; cbn [bind];
    [|subst; now split].
  eexists. split; [reflexivity|]. now split.
Qed.

(** The last stage on two filtered (float64) images: it fails exactly when
    their shapes cannot be broadcast, and otherwise returns an 8-bit image
    of the broadcast shape. *)
Lemma mix_and_quantise_shape (f1 f2 : ndarray3) (r s : R) :
  idtype f1 = float64 -> idtype f2 = float64 ->
  match broadcast_shape f1 f2 with
  | Ok (h, w, c) =>
      exists out, mix_and_quantise f1 f2 r s = Ok out
                  /\ idtype out = uint8 /\ (ih out, iw out, ic out) = (h, w, c)
  | Raise _ => mix_and_quantise f1 f2 r s = Raise ValueError
  end.
Proof.
  intros H1 H2. unfold mix_and_quantise, np_imul_float. rewrite H1, H2.
  cbn [bind].
  pose proof (np_binop_shape Rplus
                (mkArr3 float64 (ih f1) (iw f1) (ic f1)
                   (map3 (fun x => x * (1 - r)) (idata f1)))
                (mkArr3 float64 (ih f2) (iw f2) (ic f2)
                   (map3 (fun x => x * r) (idata f2)))) as H.
  unfold broadcast_shape in *. cbn [ih iw ic] in H. unfold np_add.
  destruct (broadcast_dim (ih f1) (ih f2)) as [h|]; cbn [bind] in *;
    [|destruct H as [_ ->]; reflexivity].
  destruct (broadcast_dim (iw f1) (iw f2)) as [w|]; cbn [bind] in *;
    [|destruct H as [_ ->]; reflexivity].
  destruct (broadcast_dim (ic f1) (ic f2)) as [c|]; cbn [bind] in *;
    [|destruct H as [_ ->]; reflexivity].
  destruct H as [sum [-> [_ Hshape]]]. cbn [bind].
  eexists. split; [reflexivity|]. split; [reflexivity|]. exact Hshape.
Qed.

(** *** Conversion to 8 bits *)

Lemma quantise_is_uint8 (x : R) : is_uint8 (quantise x).
Proof.
  unfold is_uint8, quantise. eexists. split; [|reflexivity]. apply Int_part_clip.
Qed.

Lemma Forall_tabulate {A : Type} (P : A -> Prop) (n : nat) (f : nat -> A) :
  (forall i, (i < n)%nat -> P (f i)) -> Forall P (tabulate n f).
Proof.
  intros H. apply Forall_forall. intros x Hx.
  apply tabulate_In in Hx. destruct Hx as [i [Hi ->]]. now apply H.
Qed.

Lemma map3_tabulate3 (g : R -> R) (h w c : nat) (f : nat -> nat -> nat -> R) :
  map3 g (tabulate3 h w c f) = tabulate3 h w c (fun i j k => g (f i j k)).
Proof.
  unfold map3, tabulate3, tabulate. rewrite map_map.
  apply map_ext; intros i. rewrite map_map.
  apply map_ext; intros j. now rewrite map_map.
Qed.

(** The last stage on two filtered images of one shape, sample by sample. *)
Lemma mix_and_quantise_same_shape (f1 f2 : ndarray3) (r s : R) :
  idtype f1 = float64 -> idtype f2 = float64 ->
  wf3 f1 = true -> wf3 f2 = true ->
  (ih f2, iw f2, ic f2) = (ih f1, iw f1, ic f1) ->
  mix_and_quantise f1 f2 r s
  = Ok (mkArr3 uint8 (ih f1) (iw f1) (ic f1)
          (tabulate3 (ih f1) (iw f1) (ic f1) (fun i j k =>
             quantise (blend (get3 (idata f1) i j k) (get3 (idata f2) i j k)
                             r s)))).
Proof.
  intros Hd1 Hd2 Hwf1 Hwf2 [= Hh Hw Hc].
  unfold mix_and_quantise, np_imul_float. rewrite Hd1, Hd2. cbn [bind].
  unfold np_add. rewrite np_binop_same_shape by (cbn [ih iw ic]; congruence).
  cbn [bind idtype ih iw ic idata promote].
  unfold astype, np_clip, np_mul_int, np_mul_float.
  cbn [idtype ih iw ic idata promote_float]. do 2 f_equal.
  rewrite !map3_tabulate3. apply tabulate3_ext. intros i j k Hi Hj Hk.
  unfold wf3 in Hwf1, Hwf2. rewrite Hh, Hw, Hc in Hwf2.
  rewrite (map3_get _ _ _ _ _ _ _ _ Hwf1) by assumption.
  rewrite (map3_get _ _ _ _ _ _ _ _ Hwf2) by assumption.
  rewrite cast_uint8_clip. reflexivity.
Qed.

(** With images of one shape the function is the pipeline of filtering,
    blending and quantising, on the pair normalised by [normalise_pair]. *)
Lemma create_hybrid_image_pipeline (img1 img2 : ndarray3)
    (sigma1 : R) (size1 : Z) (high_low1 : string)
    (sigma2 : R) (size2 : Z) (high_low2 : string) (r s : R) :
  (ih img2, iw img2, ic img2) = (ih img1, iw img1, ic img1) ->
  create_hybrid_image img1 img2 sigma1 size1 high_low1 sigma2 size2 high_low2 r s
  = hybrid_pipeline (fst (normalise_pair img1 img2)) (snd (normalise_pair img1 img2))
      sigma1 size1 high_low1 sigma2 size2 high_low2 r s.
Proof.
  intros [= Hh Hw Hc]. rewrite create_hybrid_image_stages.
  unfold hybrid_after_normalisation, hybrid_pipeline.
  set (n1 := fst (normalise_pair img1 img2)).
  set (n2 := snd (normalise_pair img1 img2)).
  assert (Hn : (ih n2, iw n2, ic n2) = (ih n1, iw n1, ic n1)).
  { unfold n1, n2, normalise_pair.
    destruct (dtype_eqb (idtype img1) uint8); cbn; congruence. }
  destruct (filter_of_mode high_low1 n1 sigma1 size1) as [f1|e1] eqn:E1;
    [|reflexivity].
  destruct (filter_of_mode high_low2 n2 sigma2 size2) as [f2|e2] eqn:E2;
    [|reflexivity].
  cbn [bind].
  destruct (filter_of_mode_shape _ _ _ _ _ E1) as [Hd1 [[= Hh1 Hw1 Hc1] Hwf1]].
  destruct (filter_of_mode_shape _ _ _ _ _ E2) as [Hd2 [[= Hh2 Hw2 Hc2] Hwf2]].
  injection Hn as Hnh Hnw Hnc.
  rewrite mix_and_quantise_same_shape by (try assumption; congruence).
  now rewrite Hh1, Hw1, Hc1.
Qed.

(** *** Worked values *)

Lemma quantise_value (x : R) (z : Z) :
  (0 <= z <= 255)%Z -> IZR z <= x * 255 < IZR z + 1 -> quantise x = IZR z.
Proof.
  intros [Hz0 Hz1] [Hlo Hhi]. unfold quantise. f_equal. symmetry.
  apply IZR_le in Hz0, Hz1.
  apply Int_part_spec.
  unfold Rmin, Rmax.
  destruct (Rle_dec (x * 255) 0); destruct (Rle_dec _ 255); lra.
Qed.

Lemma quantise_saturates (x : R) : 255 <= x * 255 -> quantise x = 255.
Proof.
  intros H. unfold quantise. f_equal.
  replace (Rmin (Rmax (x * 255) 0) 255) with 255; [apply Int_part_IZR|].
  unfold Rmin, Rmax.
  destruct (Rle_dec (x * 255) 0); destruct (Rle_dec _ 255); lra.
Qed.

(** A 1 x 1 Gaussian kernel is the single weight 1, so the low-pass of a
    single pixel is that pixel. *)
Lemma low_pass_pixel (d : dtype) (x sigma : R) :
  sigma_in_range sigma -> low_pass (pixel d x) sigma 1 = Ok (pixel float64 x).
Proof.
  intros Hs. rewrite low_pass_returns by (assumption || lia).
  unfold pixel, cross_correlation_2d, gauss_kernel, gauss_table.
  change (Z.to_nat 1) with 1%nat.
  pose proof (gauss_weight_pos sigma 1 1 0 0) as Hw.
  destruct d; cbn -[gauss_weight];
    set (w := gauss_weight sigma 1 1 0 0) in *;
    do 5 f_equal; field; lra.
Qed.

(** Division by 255 in single precision, as the code writes it. *)
Lemma map3_id (f : R -> R) (d : list (list (list R))) :
  (forall x, f x = x) -> map3 f d = d.
Proof.
  intros Hf. unfold map3.
  rewrite <- (map_id d) at 2. apply map_ext; intros rows.
  rewrite <- (map_id rows) at 2. apply map_ext; intros row.
  rewrite <- (map_id row) at 2. now apply map_ext.
Qed.

Lemma np_div_float_255 (img : ndarray3) :
  np_div_float (astype float32 img) 255 = divided_by_255 img.
Proof.
  unfold np_div_float, astype, divided_by_255. cbn [idtype ih iw ic idata promote_float].
  now rewrite (map3_id (cast_to float32)).
Qed.

Lemma normalise_pair_spec (img1 img2 : ndarray3) :
  normalise_pair img1 img2
  = if dtype_eqb (idtype img1) uint8
    then (divided_by_255 img1, divided_by_255 img2)
    else (img1, img2).
Proof. unfold normalise_pair. now rewrite !np_div_float_255. Qed.

(** C2, as stated, fails when only the second image is 8-bit: the code
    leaves it undivided, so the sample 51 saturates to 255, where
    normalising the 8-bit input would give 51. *)
Lemma eight_bit_second_image_is_not_normalised :
  create_hybrid_image (pixel float64 0) (pixel uint8 51)
                      1 1 "low" 1 1 "low" 1 1
  = Ok (pixel uint8 255)
  /\ hybrid_as_claimed (pixel float64 0) (pixel uint8 51)
                       1 1 "low" 1 1 "low" 1 1
     = Ok (pixel uint8 51)
  /\ create_hybrid_image (pixel float64 0) (pixel uint8 51)
                         1 1 "low" 1 1 "low" 1 1
     <> hybrid_as_claimed (pixel float64 0) (pixel uint8 51)
                          1 1 "low" 1 1 "low" 1 1.
Proof.
  pose proof sigma_in_range_1 as Hs1.
  assert (Hcode : create_hybrid_image (pixel float64 0) (pixel uint8 51)
                    1 1 "low" 1 1 "low" 1 1 = Ok (pixel uint8 255)).
  { rewrite create_hybrid_image_pipeline by reflexivity.
    unfold hybrid_pipeline, normalise_pair, filter_of_mode. cbn [fst snd idtype pixel dtype_eqb].
    change (String.eqb (lower "low") "low") with true. cbv iota.
    rewrite !low_pass_pixel by assumption. cbn [bind]. unfold pixel. cbn.
    do 5 f_equal. apply quantise_saturates. unfold blend. lra. }
  assert (Hclaim : hybrid_as_claimed (pixel float64 0) (pixel uint8 51)
                     1 1 "low" 1 1 "low" 1 1 = Ok (pixel uint8 51)).
  { unfold hybrid_as_claimed.
    change (normalise8 (pixel float64 0)) with (pixel float64 0).
    change (normalise8 (pixel uint8 51)) with (pixel float32 (51 / 255)).
    unfold hybrid_pipeline, filter_of_mode.
    change (String.eqb (lower "low") "low") with true. cbv iota.
    rewrite !low_pass_pixel by assumption. cbn [bind]. unfold pixel. cbn.
    do 5 f_equal. apply (quantise_value _ 51); [lia|]. unfold blend. lra. }
  split; [exact Hcode|]. split; [exact Hclaim|].
  rewrite Hcode, Hclaim. intros [= H]. apply eq_IZR in H. discriminate H.
Qed.

Lemma hybrid_pipeline_samples (n1 n2 f1 f2 : ndarray3) (r s : R) :
  let out := mkArr3 uint8 (ih n1) (iw n1) (ic n1)
               (tabulate3 (ih n1) (iw n1) (ic n1) (fun i j k =>
                  quantise (blend (get3 (idata f1) i j k) (get3 (idata f2) i j k)
                                  r s))) in
  wf3 out = true
  /\ (forall i j k, (i < ih n1)%nat -> (j < iw n1)%nat -> (k < ic n1)%nat ->
        get3 (idata out) i j k
        = quantise (blend (get3 (idata f1) i j k) (get3 (idata f2) i j k) r s))
  /\ all_samples is_uint8 out.
Proof.
  intros out. split; [apply tabulate3_rect|]. split.
  - intros i j k Hi Hj Hk. unfold out; cbn [idata]. now apply tabulate3_get.
  - unfold all_samples, out, tabulate3; cbn [idata].
    apply Forall_tabulate; intros i _.
    apply Forall_tabulate; intros j _.
    apply Forall_tabulate; intros k _. apply quantise_is_uint8.
Qed.

(** The quantised sample brackets the clipped value it truncates. *)
Lemma quantise_bracket (x t : R) :
  0 <= t ->
  exists z : Z,
    (0 <= z <= 255)%Z /\ quantise x = IZR z
    /\ IZR z - t <= Rmin (Rmax (x * 255) 0) 255 < IZR z + 1 + t.
Proof.
  intros Ht. exists (Int_part (Rmin (Rmax (x * 255) 0) 255)).
  split; [apply Int_part_clip|]. split; [reflexivity|].
  destruct (base_Int_part (Rmin (Rmax (x * 255) 0) 255)) as [H1 H2]. lra.
Qed.

(** C2, amended.  For two images of one shape and a valid parameter bundle
    (each sigma positive with a square in the binary64 range, each size
    positive and odd, mixin_ratio in [0,1], scale_factor positive),
    [create_hybrid_image] returns the image obtained by: dividing both
    images by 255 (as single-precision floats) exactly when the first
    image is 8-bit, applying to each image the filter its mode selects,
    multiplying the filtered first image by (1 - mixin_ratio) and the
    second by mixin_ratio, adding them, multiplying by scale_factor, then
    by 255, clipping to [0,255] and truncating.  The result is an 8-bit
    image of the inputs' shape and every sample is an integer z in
    [0,255]; when the samples entering the filters have magnitude at most
    M (with 1e-30 <= M <= 1e30), the clipped value of the formula lies in
    [z, z + 1) up to the accuracy [blend_tol M scale_factor] of the float
    computation. *)
Theorem createHybridImage_blend_and_quantise
    (img1 img2 : ndarray3)
    (sigma1 : R) (size1 : Z) (high_low1 : string)
    (sigma2 : R) (size2 : Z) (high_low2 : string)
    (mixin_ratio scale_factor : R)
    (Himg1 : wf3 img1 = true) (Himg2 : wf3 img2 = true)
    (Hshape : (ih img2, iw img2, ic img2) = (ih img1, iw img1, ic img1))
    (Hsigma1 : 0 < sigma1) (Hrange1 : sigma_in_range sigma1)
    (Hsize1 : (0 < size1)%Z) (Hodd1 : Z.odd size1 = true)
    (Hsigma2 : 0 < sigma2) (Hrange2 : sigma_in_range sigma2)
    (Hsize2 : (0 < size2)%Z) (Hodd2 : Z.odd size2 = true)
    (Hmix : 0 <= mixin_ratio <= 1) (Hscale : 0 < scale_factor) :
  let n1 := if dtype_eqb (idtype img1) uint8 then divided_by_255 img1 else img1 in
  let n2 := if dtype_eqb (idtype img1) uint8 then divided_by_255 img2 else img2 in
  exists f1 f2 out : ndarray3,
    filter_of_mode high_low1 n1 sigma1 size1 = Ok f1
    /\ filter_of_mode high_low2 n2 sigma2 size2 = Ok f2
    /\ create_hybrid_image img1 img2 sigma1 size1 high_low1
                           sigma2 size2 high_low2 mixin_ratio scale_factor
       = Ok out
    /\ idtype out = uint8
    /\ (ih out, iw out, ic out) = (ih img1, iw img1, ic img1)
    /\ wf3 out = true
    /\ all_samples is_uint8 out
    /\ (forall M : R,
          1e-30 <= M <= 1e30 ->
          all_samples (fun x => Rabs x <= M) n1 ->
          all_samples (fun x => Rabs x <= M) n2 ->
          forall i j k, (i < ih img1)%nat -> (j < iw img1)%nat -> (k < ic img1)%nat ->
            exists z : Z,
              (0 <= z <= 255)%Z
              /\ get3 (idata out) i j k = IZR z
              /\ IZR z - blend_tol M scale_factor
                 <= Rmin (Rmax (blend (get3 (idata f1) i j k) (get3 (idata f2) i j k)
                                      mixin_ratio scale_factor * 255) 0) 255
                 < IZR z + 1 + blend_tol M scale_factor).
Proof.
  intros n1 n2.
  assert (Hn1 : n1 = fst (normalise_pair img1 img2)).
  { rewrite normalise_pair_spec. unfold n1.
    now destruct (dtype_eqb (idtype img1) uint8). }
  assert (Hn2 : n2 = snd (normalise_pair img1 img2)).
  { rewrite normalise_pair_spec. unfold n2.
    now destruct (dtype_eqb (idtype img1) uint8). }
  assert (Hs : (ih n1, iw n1, ic n1) = (ih img1, iw img1, ic img1)).
  { unfold n1. now destruct (dtype_eqb (idtype img1) uint8). }
  destruct (filter_of_mode_returns high_low1 n1 sigma1 size1) as [f1 Hf1];
    [assumption | lia |].
  destruct (filter_of_mode_returns high_low2 n2 sigma2 size2) as [f2 Hf2];
    [assumption | lia |].
  pose proof (hybrid_pipeline_samples n1 n2 f1 f2 mixin_ratio scale_factor)
    as [Hwf [Hget Hall]].
  injection Hs as Hh Hw Hc. rewrite Hh, Hw, Hc in Hwf, Hget, Hall.
  exists f1, f2. eexists.
  split; [exact Hf1|]. split; [exact Hf2|]. split.
  { rewrite create_hybrid_image_pipeline by exact Hshape.
    rewrite <- Hn1, <- Hn2. unfold hybrid_pipeline.
    rewrite Hf1, Hf2. cbn [bind]. rewrite Hh, Hw, Hc. reflexivity. }
  split; [reflexivity|]. split; [reflexivity|].
  split; [exact Hwf|]. split; [exact Hall|].
  intros M [HM0 HM1] _ _ i j k Hi Hj Hk.
  rewrite Hget by assumption. apply quantise_bracket.
  unfold blend_tol. apply Rmult_le_pos; [lra|].
  apply Rmult_le_pos; [|lra]. apply Rmult_le_pos; lra.
Qed.

Lemma createHybridImage_blend_and_quantise_witness :
  wf3 img_2x2_uint8 = true
  /\ (ih img_2x2_uint8, iw img_2x2_uint8, ic img_2x2_uint8)
     = (ih img_2x2_uint8, iw img_2x2_uint8, ic img_2x2_uint8)
  /\ 0 < 2 /\ sigma_in_range 2 /\ (0 < 3)%Z /\ Z.odd 3 = true
  /\ 0 <= 1 / 2 <= 1 /\ 0 < 1
  /\ exists out : ndarray3,
       create_hybrid_image img_2x2_uint8 img_2x2_uint8
                           2 3 "low" 2 3 "high" (1 / 2) 1 = Ok out
       /\ all_samples is_uint8 out.
Proof.
  split; [reflexivity|]. split; [reflexivity|]. split; [lra|].
  split; [exact sigma_in_range_2|].
  split; [reflexivity|]. split; [reflexivity|]. split; [lra|]. split; [lra|].
  destruct (createHybridImage_blend_and_quantise
              img_2x2_uint8 img_2x2_uint8 2 3 "low" 2 3 "high" (1 / 2) 1
              eq_refl eq_refl eq_refl
              ltac:(lra) sigma_in_range_2 eq_refl eq_refl
              ltac:(lra) sigma_in_range_2 eq_refl eq_refl
              ltac:(lra) ltac:(lra))
    as [f1 [f2 [out [_ [_ [Hout [_ [_ [_ [Hall _]]]]]]]]]].
  exists out. split; assumption.
Defined.

(** *** Where a call can fail *)

Lemma broadcast_shape_error (a b : ndarray3) (e : pyexn) :
  broadcast_shape a b = Raise e -> e = ValueError.
Proof.
  intros H. pose proof (np_binop_shape Rplus a b) as Hb. rewrite H in Hb.
  now destruct Hb.
Qed.

(** The call fails in the kernel construction of the first image, else in
    that of the second, else in the final sum when the two shapes cannot
    be broadcast -- and nowhere else. *)
Lemma hybrid_after_normalisation_raised (n1 n2 : ndarray3)
    (sigma1 : R) (size1 : Z) (high_low1 : string)
    (sigma2 : R) (size2 : Z) (high_low2 : string) (r s : R) :
  raised (hybrid_after_normalisation n1 n2 sigma1 size1 high_low1
                                     sigma2 size2 high_low2 r s)
  = match raised (gaussian_blur_kernel_2d sigma1 size1 size1) with
    | Some e => Some e
    | None =>
        match raised (gaussian_blur_kernel_2d sigma2 size2 size2) with
        | Some e => Some e
        | None => raised (broadcast_shape n1 n2)
        end
    end.
Proof.
  unfold hybrid_after_normalisation.
  rewrite <- (filter_of_mode_raised high_low1 n1).
  rewrite <- (filter_of_mode_raised high_low2 n2).
  destruct (filter_of_mode high_low1 n1 sigma1 size1) as [f1|e1] eqn:E1;
    [|reflexivity].
  destruct (filter_of_mode high_low2 n2 sigma2 size2) as [f2|e2] eqn:E2;
    [|reflexivity].
  cbn [bind raised].
  destruct (filter_of_mode_shape _ _ _ _ _ E1) as [Hd1 [[= Hh1 Hw1 Hc1] _]].
  destruct (filter_of_mode_shape _ _ _ _ _ E2) as [Hd2 [[= Hh2 Hw2 Hc2] _]].
  pose proof (mix_and_quantise_shape f1 f2 r s Hd1 Hd2) as Hmix.
  assert (Hbs : broadcast_shape f1 f2 = broadcast_shape n1 n2).
  { unfold broadcast_shape. now rewrite Hh1, Hw1, Hc1, Hh2, Hw2, Hc2. }
  rewrite Hbs in Hmix.
  destruct (broadcast_shape n1 n2) as [[[h w] c]|e] eqn:Eb.
  - destruct Hmix as [out [-> _]]. reflexivity.
  - rewrite Hmix. apply broadcast_shape_error in Eb. now subst.
Qed.

Lemma normalise_pair_shapes (img1 img2 : ndarray3) :
  broadcast_shape (fst (normalise_pair img1 img2)) (snd (normalise_pair img1 img2))
  = broadcast_shape img1 img2.
Proof.
  unfold normalise_pair. now destruct (dtype_eqb (idtype img1) uint8).
Qed.

(** With parameters the kernel construction accepts, both filters run to
    completion whatever the two shapes; the images meet only in the final
    sum, which alone can reject them. *)
Lemma create_hybrid_image_outcome (img1 img2 : ndarray3)
    (sigma1 : R) (size1 : Z) (high_low1 : string)
    (sigma2 : R) (size2 : Z) (high_low2 : string) (r s : R) :
  sigma_in_range sigma1 -> (0 <= size1)%Z ->
  sigma_in_range sigma2 -> (0 <= size2)%Z ->
  exists f1 f2 : ndarray3,
    filter_of_mode high_low1 (fst (normalise_pair img1 img2)) sigma1 size1 = Ok f1
    /\ filter_of_mode high_low2 (snd (normalise_pair img1 img2)) sigma2 size2 = Ok f2
    /\ create_hybrid_image img1 img2 sigma1 size1 high_low1
                           sigma2 size2 high_low2 r s
       = mix_and_quantise f1 f2 r s
    /\ match broadcast_shape img1 img2 with
       | Ok (h, w, c) =>
           exists out : ndarray3,
             create_hybrid_image img1 img2 sigma1 size1 high_low1
                                 sigma2 size2 high_low2 r s = Ok out
             /\ idtype out = uint8 /\ (ih out, iw out, ic out) = (h, w, c)
       | Raise _ =>
           create_hybrid_image img1 img2 sigma1 size1 high_low1
                               sigma2 size2 high_low2 r s = Raise ValueError
       end.
Proof.
  intros Hs1 Hz1 Hs2 Hz2.
  set (n1 := fst (normalise_pair img1 img2)).
  set (n2 := snd (normalise_pair img1 img2)).
  destruct (filter_of_mode_returns high_low1 n1 sigma1 size1 Hs1 Hz1) as [f1 E1].
  destruct (filter_of_mode_returns high_low2 n2 sigma2 size2 Hs2 Hz2) as [f2 E2].
  exists f1, f2. split; [exact E1|]. split; [exact E2|].
  assert (Hcall : create_hybrid_image img1 img2 sigma1 size1 high_low1
                    sigma2 size2 high_low2 r s = mix_and_quantise f1 f2 r s).
  { rewrite create_hybrid_image_stages. unfold hybrid_after_normalisation.
    fold n1 n2. now rewrite E1, E2. }
  split; [exact Hcall|]. rewrite Hcall.
  destruct (filter_of_mode_shape _ _ _ _ _ E1) as [Hd1 [[= Hh1 Hw1 Hc1] _]].
  destruct (filter_of_mode_shape _ _ _ _ _ E2) as [Hd2 [[= Hh2 Hw2 Hc2] _]].
  pose proof (mix_and_quantise_shape f1 f2 r s Hd1 Hd2) as Hmix.
  assert (Hbs : broadcast_shape f1 f2 = broadcast_shape img1 img2).
  { transitivity (broadcast_shape n1 n2); [|apply normalise_pair_shapes].
    unfold broadcast_shape. now rewrite Hh1, Hw1, Hc1, Hh2, Hw2, Hc2. }
  rewrite Hbs in Hmix. exact Hmix.
Qed.

(** C6, as stated, fails.  A 1 x 1 image paired with a 1 x 2 image is not
    rejected at all: an image of the broadcast shape is returned.  A
    10 x 10 image paired with a 10 x 12 image is rejected, but only by the
    final sum, after both images have been filtered. *)
Lemma mismatched_shapes_are_not_rejected_up_front :
  ((ih (pixel float64 1), iw (pixel float64 1)) <> (ih row_1x2, iw row_1x2)
   /\ exists out : ndarray3,
        create_hybrid_image (pixel float64 1) row_1x2
                            1 1 "low" 1 1 "low" (1 / 2) 1 = Ok out
        /\ (ih out, iw out, ic out) = (1%nat, 2%nat, 1%nat))
  /\ (exists f1 f2 : ndarray3,
        low_pass (zeros 10 10 1) 1 3 = Ok f1
        /\ low_pass (zeros 10 12 1) 1 3 = Ok f2
        /\ create_hybrid_image (zeros 10 10 1) (zeros 10 12 1)
                               1 3 "low" 1 3 "low" (1 / 2) 1
           = mix_and_quantise f1 f2 (1 / 2) 1
        /\ mix_and_quantise f1 f2 (1 / 2) 1 = Raise ValueError).
Proof.
  split.
  - split; [discriminate|].
    destruct (create_hybrid_image_outcome (pixel float64 1) row_1x2
                1 1 "low" 1 1 "low" (1 / 2) 1) as [f1 [f2 [_ [_ [_ H]]]]];
      try exact sigma_in_range_1; try lia.
    change (broadcast_shape (pixel float64 1) row_1x2)
      with (@Ok (nat * nat * nat) (1%nat, 2%nat, 1%nat)) in H.
    destruct H as [out [Hout [_ Hshape]]]. exists out. now split.
  - destruct (create_hybrid_image_outcome (zeros 10 10 1) (zeros 10 12 1)
                1 3 "low" 1 3 "low" (1 / 2) 1) as [f1 [f2 [H1 [H2 [Hcall H]]]]];
      try exact sigma_in_range_1; try lia.
    change (broadcast_shape (zeros 10 10 1) (zeros 10 12 1))
      with (@Raise (nat * nat * nat) ValueError) in H.
    exists f1, f2. split; [exact H1|]. split; [exact H2|].
    split; [exact Hcall|]. rewrite <- Hcall. exact H.
Qed.

(** C6, amended.  The two shapes are not compared before filtering.  For
    images whose (height, width) differ and valid parameters (each sigma
    positive with a square in the binary64 range, each size positive and
    odd), each image is filtered on its own, and the filtered images meet
    only in the final elementwise sum: there the call fails with numpy's
    broadcasting ValueError when some axis has two different lengths
    neither of which is 1, and otherwise it returns an 8-bit image of the
    broadcast shape. *)
Theorem shape_mismatch_is_met_by_the_final_sum
    (img1 img2 : ndarray3)
    (sigma1 : R) (size1 : Z) (high_low1 : string)
    (sigma2 : R) (size2 : Z) (high_low2 : string)
    (mixin_ratio scale_factor : R)
    (Himg1 : wf3 img1 = true) (Himg2 : wf3 img2 = true)
    (Hsigma1 : 0 < sigma1) (Hrange1 : sigma_in_range sigma1)
    (Hsize1 : (0 < size1)%Z) (Hodd1 : Z.odd size1 = true)
    (Hsigma2 : 0 < sigma2) (Hrange2 : sigma_in_range sigma2)
    (Hsize2 : (0 < size2)%Z) (Hodd2 : Z.odd size2 = true)
    (Hmismatch : (ih img1, iw img1) <> (ih img2, iw img2)) :
  let n1 := if dtype_eqb (idtype img1) uint8 then divided_by_255 img1 else img1 in
  let n2 := if dtype_eqb (idtype img1) uint8 then divided_by_255 img2 else img2 in
  exists f1 f2 : ndarray3,
    filter_of_mode high_low1 n1 sigma1 size1 = Ok f1
    /\ filter_of_mode high_low2 n2 sigma2 size2 = Ok f2
    /\ create_hybrid_image img1 img2 sigma1 size1 high_low1
                           sigma2 size2 high_low2 mixin_ratio scale_factor
       = mix_and_quantise f1 f2 mixin_ratio scale_factor
    /\ match broadcast_dim (ih img1) (ih img2),
             broadcast_dim (iw img1) (iw img2),
             broadcast_dim (ic img1) (ic img2) with
       | Ok h, Ok w, Ok c =>
           exists out : ndarray3,
             create_hybrid_image img1 img2 sigma1 size1 high_low1
                                 sigma2 size2 high_low2 mixin_ratio scale_factor
             = Ok out
             /\ idtype out = uint8 /\ (ih out, iw out, ic out) = (h, w, c)
       | _, _, _ =>
           create_hybrid_image img1 img2 sigma1 size1 high_low1
                               sigma2 size2 high_low2 mixin_ratio scale_factor
           = Raise ValueError
       end.
Proof.
  intros n1 n2.
  assert (Hn1 : n1 = fst (normalise_pair img1 img2)).
  { rewrite normalise_pair_spec. unfold n1.
    now destruct (dtype_eqb (idtype img1) uint8). }
  assert (Hn2 : n2 = snd (normalise_pair img1 img2)).
  { rewrite normalise_pair_spec. unfold n2.
    now destruct (dtype_eqb (idtype img1) uint8). }
  rewrite Hn1, Hn2.
  destruct (create_hybrid_image_outcome img1 img2 sigma1 size1 high_low1
              sigma2 size2 high_low2 mixin_ratio scale_factor)
    as [f1 [f2 [H1 [H2 [Hcall H]]]]]; try assumption; try lia.
  exists f1, f2. split; [exact H1|]. split; [exact H2|]. split; [exact Hcall|].
  unfold broadcast_shape in H.
  destruct (broadcast_dim (ih img1) (ih img2)) as [h|]; cbn [bind] in H;
    [|exact H].
  destruct (broadcast_dim (iw img1) (iw img2)) as [w|]; cbn [bind] in H;
    [|exact H].
  destruct (broadcast_dim (ic img1) (ic img2)) as [c|]; cbn [bind] in H;
    exact H.
Qed.

Lemma shape_mismatch_is_met_by_the_final_sum_witness :
  wf3 (zeros 10 10 1) = true /\ wf3 (zeros 10 12 1) = true
  /\ 0 < 1 /\ sigma_in_range 1 /\ (0 < 3)%Z /\ Z.odd 3 = true
  /\ (ih (zeros 10 10 1), iw (zeros 10 10 1))
     <> (ih (zeros 10 12 1), iw (zeros 10 12 1))
  /\ create_hybrid_image (zeros 10 10 1) (zeros 10 12 1)
                         1 3 "low" 1 3 "high" (1 / 2) 1
     = Raise ValueError.
Proof.
  assert (Hmis : (ih (zeros 10 10 1), iw (zeros 10 10 1))
                 <> (ih (zeros 10 12 1), iw (zeros 10 12 1))) by discriminate.
  split; [reflexivity|]. split; [reflexivity|]. split; [lra|].
  split; [exact sigma_in_range_1|].
  split; [reflexivity|]. split; [reflexivity|]. split; [exact Hmis|].
  destruct (shape_mismatch_is_met_by_the_final_sum
              (zeros 10 10 1) (zeros 10 12 1) 1 3 "low" 1 3 "high" (1 / 2) 1
              eq_refl eq_refl ltac:(lra) sigma_in_range_1 eq_refl eq_refl
              ltac:(lra) sigma_in_range_1 eq_refl eq_refl Hmis)
    as [f1 [f2 [_ [_ [_ H]]]]].
  cbn [broadcast_dim zeros ih iw ic Nat.eqb] in H.
  exact H.
Defined.

(** *** The type of the second image is never consulted *)

Lemma gaussian_blur_kernel_2d_dtype (sigma : R) (h w : Z) (K : ndarray2) :
  gaussian_blur_kernel_2d sigma h w = Ok K -> kdtype K = float64.
Proof.
  unfold gaussian_blur_kernel_2d.
  destruct ((h <? 0) || (w <? 0))%Z%bool; [discriminate|].
  destruct (mapM _ _) as [kernel|e]; [|discriminate].
  cbn [bind]. now intros [= <-].
Qed.

(** With a float64 kernel the products are float64 whatever the type of
    the image. *)
Lemma cross_correlation_2d_set_dtype (d : dtype) (n : ndarray3) (K : ndarray2) :
  kdtype K = float64 ->
  cross_correlation_2d (set_dtype d n) K = cross_correlation_2d n K.
Proof.
  intros HK. unfold cross_correlation_2d, set_dtype, np_pad.
  cbn [idtype ih iw ic idata]. now rewrite HK, !promote_float64_r.
Qed.

Lemma low_pass_set_dtype (d : dtype) (n : ndarray3) (sigma : R) (size : Z) :
  low_pass (set_dtype d n) sigma size = low_pass n sigma size.
Proof.
  unfold low_pass.
  destruct (gaussian_blur_kernel_2d sigma size size) as [K|e] eqn:EK;
    [|reflexivity].
  cbn [bind]. f_equal.
  apply cross_correlation_2d_set_dtype.
  now apply gaussian_blur_kernel_2d_dtype in EK.
Qed.

Lemma high_pass_set_dtype (d : dtype) (n : ndarray3) (sigma : R) (size : Z) :
  high_pass (set_dtype d n) sigma size = high_pass n sigma size.
Proof.
  pose proof (high_pass_of_low_pass (set_dtype d n) sigma size) as H1.
  pose proof (high_pass_of_low_pass n sigma size) as H2.
  rewrite low_pass_set_dtype in H1.
  destruct (low_pass n sigma size) as [lp|e]; now rewrite H1, H2.
Qed.

Lemma filter_of_mode_set_dtype (mode : string) (d : dtype) (n : ndarray3)
    (sigma : R) (size : Z) :
  filter_of_mode mode (set_dtype d n) sigma size = filter_of_mode mode n sigma size.
Proof.
  unfold filter_of_mode. destruct (String.eqb (lower mode) "low").
  - apply low_pass_set_dtype.
  - apply high_pass_set_dtype.
Qed.

(** The hybrid of two single pixels under 1 x 1 kernels and low-pass
    filters, when the first pixel has weight 0: the quantised second
    pixel, divided by 255 first exactly when the first image is 8-bit. *)
Lemma create_hybrid_image_pixels (d1 d2 : dtype) (x1 x2 s : R) (z : Z) :
  quantise ((if dtype_eqb d1 uint8 then x2 / 255 else x2) * s) = IZR z ->
  create_hybrid_image (pixel d1 x1) (pixel d2 x2) 1 1 "low" 1 1 "low" 1 s
  = Ok (pixel uint8 (IZR z)).
Proof.
  intros Hq. pose proof sigma_in_range_1 as Hs1.
  rewrite create_hybrid_image_pipeline by reflexivity.
  rewrite normalise_pair_spec. unfold hybrid_pipeline, filter_of_mode.
  change (String.eqb (lower "low") "low") with true. cbv iota.
  cbn [idtype pixel].
  destruct (dtype_eqb d1 uint8); cbn [fst snd];
    [change (divided_by_255 (pixel d1 x1)) with (pixel float32 (x1 / 255));
     change (divided_by_255 (pixel d2 x2)) with (pixel float32 (x2 / 255))|];
    rewrite !low_pass_pixel by assumption; cbn [bind]; unfold pixel; cbn;
    do 5 f_equal; rewrite <- Hq; f_equal; unfold blend; ring.
Qed.

(** C9.  Whether the images are divided by 255 depends on the type of
    [img1] alone.  If [img1] is 8-bit, the call returns what it returns on
    the two single-precision images holding the samples of [img1] and of
    [img2] divided by 255, whatever the type of [img2]; if [img1] is not
    8-bit, it returns what the remaining steps give on the two images as
    they are, even when [img2] is 8-bit.  Giving [img2] another type never
    changes the result.  Two calls show the difference: with the 8-bit
    pixel 255 as first image, the float64 pixel 255 as second image is
    divided (it counts as 1.0, and half of it gives 127); with the float64
    pixel 0 as first image, the 8-bit pixel 51 as second image is not
    divided (it counts as 51.0 and saturates to 255). *)
Theorem normalisation_follows_dtype_of_img1
    (img1 img2 : ndarray3)
    (sigma1 : R) (size1 : Z) (high_low1 : string)
    (sigma2 : R) (size2 : Z) (high_low2 : string)
    (mixin_ratio scale_factor : R) :
  (idtype img1 = uint8 ->
     create_hybrid_image img1 img2 sigma1 size1 high_low1
                         sigma2 size2 high_low2 mixin_ratio scale_factor
     = create_hybrid_image
         (mkArr3 float32 (ih img1) (iw img1) (ic img1)
                 (map3 (fun x => x / 255) (idata img1)))
         (mkArr3 float32 (ih img2) (iw img2) (ic img2)
                 (map3 (fun x => x / 255) (idata img2)))
         sigma1 size1 high_low1 sigma2 size2 high_low2 mixin_ratio scale_factor)
  /\ (idtype img1 <> uint8 ->
     create_hybrid_image img1 img2 sigma1 size1 high_low1
                         sigma2 size2 high_low2 mixin_ratio scale_factor
     = hybrid_after_normalisation img1 img2
         sigma1 size1 high_low1 sigma2 size2 high_low2 mixin_ratio scale_factor)
  /\ (forall d : dtype,
     create_hybrid_image img1 (set_dtype d img2) sigma1 size1 high_low1
                         sigma2 size2 high_low2 mixin_ratio scale_factor
     = create_hybrid_image img1 img2 sigma1 size1 high_low1
                           sigma2 size2 high_low2 mixin_ratio scale_factor)
  /\ create_hybrid_image (pixel uint8 255) (pixel float64 255)
                         1 1 "low" 1 1 "low" 1 (1 / 2)
     = Ok (pixel uint8 127)
  /\ create_hybrid_image (pixel float64 0) (pixel uint8 51)
                         1 1 "low" 1 1 "low" 1 1
     = Ok (pixel uint8 255).
Proof.
  split; [|split; [|split; [|split]]].
  - intros Hd. rewrite !create_hybrid_image_stages, !normalise_pair_spec.
    rewrite Hd. reflexivity.
  - intros Hd. rewrite create_hybrid_image_stages, normalise_pair_spec.
    destruct (idtype img1); [contradiction | reflexivity | reflexivity].
  - intros d. rewrite !create_hybrid_image_stages, !normalise_pair_spec.
    destruct (dtype_eqb (idtype img1) uint8); cbn [fst snd].
    + reflexivity.
    + unfold hybrid_after_normalisation.
      now rewrite filter_of_mode_set_dtype.
  - apply (create_hybrid_image_pixels uint8 float64 255 255 (1 / 2) 127).
    cbn [dtype_eqb]. apply (quantise_value _ 127); [lia | lra].
  - apply (create_hybrid_image_pixels float64 uint8 0 51 1 255).
    cbn [dtype_eqb]. apply quantise_saturates. lra.
Qed.

Lemma normalisation_follows_dtype_of_img1_witness :
  idtype img_2x2_uint8 = uint8
  /\ create_hybrid_image img_2x2_uint8 img_3x3 1 1 "low" 1 1 "low" 1 1
     = create_hybrid_image
         (mkArr3 float32 2 2 1 (map3 (fun x => x / 255) (idata img_2x2_uint8)))
         (mkArr3 float32 3 3 1 (map3 (fun x => x / 255) (idata img_3x3)))
         1 1 "low" 1 1 "low" 1 1.
Proof.
  split; [reflexivity|].
  exact (proj1 (normalisation_follows_dtype_of_img1
                  img_2x2_uint8 img_3x3 1 1 "low" 1 1 "low" 1 1) eq_refl).
Defined.

(** *** Mode strings *)

Lemma lower_ascii_l (c : ascii) :
  lower_ascii c = "l"%char <-> c = "l"%char \/ c = "L"%char.
Proof.
  split.
  - destruct c as [[] [] [] [] [] [] [] []]; vm_compute; intros H;
      try discriminate H; auto.
  - intros [-> | ->]; reflexivity.
Qed.

Lemma lower_ascii_o (c : ascii) :
  lower_ascii c = "o"%char <-> c = "o"%char \/ c = "O"%char.
Proof.
  split.
  - destruct c as [[] [] [] [] [] [] [] []]; vm_compute; intros H;
      try discriminate H; auto.
  - intros [-> | ->]; reflexivity.
Qed.

Lemma lower_ascii_w (c : ascii) :
  lower_ascii c = "w"%char <-> c = "w"%char \/ c = "W"%char.
Proof.
  split.
  - destruct c as [[] [] [] [] [] [] [] []]; vm_compute; intros H;
      try discriminate H; auto.
  - intros [-> | ->]; reflexivity.
Qed.

(** The strings whose lowercase form is "low". *)
Lemma lower_is_low (mode : string) :
  String.eqb (lower mode) "low" = true
  <-> In mode ["low"; "loW"; "lOw"; "lOW"; "Low"; "LoW"; "LOw"; "LOW"]%string.
Proof.
  rewrite String.eqb_eq. split.
  - destruct mode as [|c1 [|c2 [|c3 [|c4 rest]]]]; cbn [lower];
      intros H; try discriminate H.
    injection H as H1 H2 H3.
    apply lower_ascii_l in H1. apply lower_ascii_o in H2.
    apply lower_ascii_w in H3.
    destruct H1 as [-> | ->], H2 as [-> | ->], H3 as [-> | ->]; cbn; tauto.
  - cbn [In]. intros H.
    repeat (destruct H as [<- | H]; [reflexivity|]). contradiction.
Qed.

(** C10.  The mode strings are never validated.  For each image the
    low-pass filter is applied exactly when the lowercase form of its mode
    string is "low" -- that is, for the eight spellings of "low" -- and
    every other string selects the high-pass filter; whether the call
    fails, and with which exception, does not depend on the two modes. *)
Theorem filter_modes_are_never_validated
    (img1 img2 : ndarray3)
    (sigma1 : R) (size1 : Z) (high_low1 : string)
    (sigma2 : R) (size2 : Z) (high_low2 : string)
    (mixin_ratio scale_factor : R) :
  create_hybrid_image img1 img2 sigma1 size1 high_low1
                      sigma2 size2 high_low2 mixin_ratio scale_factor
  = (let n1 := fst (normalise_pair img1 img2) in
     let n2 := snd (normalise_pair img1 img2) in
     f1 <- (if String.eqb (lower high_low1) "low"
            then low_pass n1 sigma1 size1 else high_pass n1 sigma1 size1) ;;
     f2 <- (if String.eqb (lower high_low2) "low"
            then low_pass n2 sigma2 size2 else high_pass n2 sigma2 size2) ;;
     mix_and_quantise f1 f2 mixin_ratio scale_factor)
  /\ (forall mode : string,
        String.eqb (lower mode) "low" = true
        <-> In mode ["low"; "loW"; "lOw"; "lOW"; "Low"; "LoW"; "LOw"; "LOW"]%string)
  /\ (forall mode1 mode2 : string,
        raised (create_hybrid_image img1 img2 sigma1 size1 mode1
                                    sigma2 size2 mode2 mixin_ratio scale_factor)
        = raised (create_hybrid_image img1 img2 sigma1 size1 high_low1
                                      sigma2 size2 high_low2
                                      mixin_ratio scale_factor)).
Proof.
  split; [|split].
  - rewrite create_hybrid_image_stages.
    unfold hybrid_after_normalisation, filter_of_mode. cbv zeta.
    destruct (String.eqb (lower high_low1) "low");
      destruct (String.eqb (lower high_low2) "low"); reflexivity.
  - apply lower_is_low.
  - intros mode1 mode2. rewrite !create_hybrid_image_stages.
    now rewrite !hybrid_after_normalisation_raised.
Qed.

Example invalid_modes_select_high_pass :
  filter_of_mode "HIGH" = high_pass /\ filter_of_mode "" = high_pass
  /\ filter_of_mode "lowpass" = high_pass /\ filter_of_mode "median" = high_pass
  /\ filter_of_mode "LoW" = low_pass.
Proof. repeat split. Qed.

(** * Further properties of the code *)

(** ** More on sums *)

Lemma bigsum_scale_l (n : nat) (f : nat -> R) (s : R) :
  bigsum n (fun a => s * f a) = s * bigsum n f.
Proof.
  rewrite <- (Rmult_comm (bigsum n f)), <- bigsum_scale.
  apply bigsum_ext. intros a _. apply Rmult_comm.
Qed.


Lemma bigsum_nonneg (n : nat) (f : nat -> R) :
  (forall a, (a < n)%nat -> 0 <= f a) -> 0 <= bigsum n f.
Proof.
  revert f. induction n as [|n IH]; intros f H; simpl; [lra|].
  assert (0 <= f O) by (apply H; lia).
  assert (0 <= bigsum n (fun a => f (S a))).
  { apply IH. intros a Ha. apply H. lia. }
  lra.
Qed.

Lemma bigsum_ge_term (n : nat) (f : nat -> R) (a0 : nat) :
  (forall a, (a < n)%nat -> 0 <= f a) -> (a0 < n)%nat -> f a0 <= bigsum n f.
Proof.
  revert f a0. induction n as [|n IH]; intros f a0 H Ha0; [lia|]. simpl.
  assert (0 <= f O) by (apply H; lia).
  assert (0 <= bigsum n (fun a => f (S a))).
  { apply bigsum_nonneg. intros a Ha. apply H. lia. }
  destruct a0 as [|a0]; [lra|].
  assert (f (S a0) <= bigsum n (fun a => f (S a))).
  { apply (IH (fun a => f (S a))); [|lia]. intros a Ha. apply H. lia. }
  lra.
Qed.

(** ** [cross_correlation_2d] as a local operator *)


(** X2. An output sample of [cross_correlation_2d] depends only on the
    input samples of the same channel that lie in the kernel-sized window
    around it: two images of one type and one shape that agree there give
    the same output sample. *)
Theorem cross_correlation_2d_local
    (img1 img2 : ndarray3) (kernel : ndarray2) (i j k : nat) :
  wf3 img1 = true -> wf3 img2 = true -> wf2 kernel = true ->
  idtype img2 = idtype img1 ->
  (ih img2, iw img2, ic img2) = (ih img1, iw img1, ic img1) ->
  (forall r c, (r < ih img1)%nat -> (c < iw img1)%nat ->
     (i <= r + kh kernel / 2 < i + kh kernel)%nat ->
     (j <= c + kw kernel / 2 < j + kw kernel)%nat ->
     get3 (idata img1) r c k = get3 (idata img2) r c k) ->
  (i < ih img1)%nat -> (j < iw img1)%nat -> (k < ic img1)%nat ->
  get3 (idata (cross_correlation_2d img1 kernel)) i j k
  = get3 (idata (cross_correlation_2d img2 kernel)) i j k.
Proof.
  intros Hwf1 Hwf2 Hk Hd [= Hh2 Hw2 Hc2] Hsame Hi Hj Hc.
  rewrite !cross_correlation_2d_get_cast by (try assumption; lia).
  rewrite Hd.
  apply bigsum_ext; intros a Ha. apply bigsum_ext; intros b Hb.
  do 2 f_equal. unfold padded_at. rewrite Hh2, Hw2.
  destruct ((kh kernel / 2 <=? i + a)%nat) eqn:E1; cbn [andb]; [|reflexivity].
  destruct ((i + a <? kh kernel / 2 + ih img1)%nat) eqn:E2; cbn [andb];
    [|reflexivity].
  destruct ((kw kernel / 2 <=? j + b)%nat) eqn:E3; cbn [andb]; [|reflexivity].
  destruct ((j + b <? kw kernel / 2 + iw img1)%nat) eqn:E4; [|reflexivity].
  apply Nat.leb_le in E1, E3. apply Nat.ltb_lt in E2, E4.
  apply Hsame; lia.
Qed.

Lemma cross_correlation_2d_local_witness :
  img_3x3 <> img_3x3_alt
  /\ get3 (idata (cross_correlation_2d img_3x3 diag_3x3)) 1 0 0
     = get3 (idata (cross_correlation_2d img_3x3_alt diag_3x3)) 1 0 0.
Proof.
  split.
  - intros [= H]. apply eq_IZR in H. discriminate H.
  - apply (cross_correlation_2d_local img_3x3 img_3x3_alt diag_3x3);
      try reflexivity; try (cbn; lia).
    intros r c Hr Hc _ Hwin. cbn in Hr, Hc, Hwin.
    destruct r as [|[|[|r]]]; [| | |lia];
      (destruct c as [|[|c]]; [| |lia]); reflexivity.
Defined.

(** ** Weighted averages *)


(** The total weight of a kernel, as a double sum over its cells. *)
Lemma kernel_total (kernel : ndarray2) :
  wf2 kernel = true ->
  bigsum (kh kernel) (fun a => bigsum (kw kernel) (fun b => get2 (kdata kernel) a b))
  = np_sum2 (kdata kernel).
Proof. intros Hk. symmetry. now apply np_sum2_get. Qed.


(** On a channel where the image is constant, an interior output sample
    is the constant times the total weight. *)
Lemma cross_correlation_2d_constant_interior
    (img : ndarray3) (kernel : ndarray2) (v : R) (i j k : nat) :
  wf3 img = true -> wf2 kernel = true ->
  promote (idtype img) (kdtype kernel) <> uint8 ->
  (forall i j, (i < ih img)%nat -> (j < iw img)%nat ->
     get3 (idata img) i j k = v) ->
  (kh kernel / 2 <= i)%nat -> (i + kh kernel / 2 < ih img)%nat ->
  (kw kernel / 2 <= j)%nat -> (j + kw kernel / 2 < iw img)%nat ->
  (k < ic img)%nat ->
  get3 (idata (cross_correlation_2d img kernel)) i j k
  = v * np_sum2 (kdata kernel).
Proof.
  intros Hwf Hk Hd Hconst Hi1 Hi2 Hj1 Hj2 Hc.
  rewrite cross_correlation_2d_interior by assumption.
  rewrite <- (kernel_total kernel Hk).
  pose proof (Nat.div_mod_eq (kh kernel) 2) as Hm.
  pose proof (Nat.mod_upper_bound (kh kernel) 2) as Hm'.
  pose proof (Nat.div_mod_eq (kw kernel) 2) as Hn.
  pose proof (Nat.mod_upper_bound (kw kernel) 2) as Hn'.
  rewrite <- bigsum_scale_l. apply bigsum_ext; intros a Ha.
  rewrite <- bigsum_scale_l. apply bigsum_ext; intros b Hb.
  rewrite Hconst by lia. reflexivity.
Qed.

(** The Gaussian kernel is a float64 array. *)
Lemma gauss_kernel_float (d : dtype) (sigma : R) (h w : Z) :
  promote d (kdtype (gauss_kernel sigma h w)) <> uint8.
Proof. cbn [kdtype gauss_kernel]. rewrite promote_float64_r. discriminate. Qed.

(** ** The shape of the Gaussian weights *)

(** The exponent decreases with the squared distance to the centre. *)
Lemma gauss_exponent_lt (sigma : R) (d1 d2 : Z) :
  sigma <> 0 -> (d1 < d2)%Z ->
  - IZR d2 / (2 * sigma ^ 2) < - IZR d1 / (2 * sigma ^ 2).
Proof.
  intros Hs Hd. pose proof (Rsqr_pos_lt sigma Hs) as Hp.
  rewrite Rsqr_pow2 in Hp. apply IZR_lt in Hd.
  unfold Rdiv. apply Rmult_lt_compat_r; [|lra].
  apply Rinv_0_lt_compat. lra.
Qed.

Lemma exp_le (x y : R) : x <= y -> exp x <= exp y.
Proof.
  intros [H | ->]; [|lra]. apply Rlt_le. now apply exp_increasing.
Qed.

Lemma gauss_exponent_le (sigma : R) (d1 d2 : Z) :
  sigma <> 0 -> (d1 <= d2)%Z ->
  - IZR d2 / (2 * sigma ^ 2) <= - IZR d1 / (2 * sigma ^ 2).
Proof.
  intros Hs Hd. destruct (Z.eq_dec d1 d2) as [-> | Hne]; [lra|].
  apply Rlt_le, gauss_exponent_lt; [assumption | lia].
Qed.

Lemma gauss_weight_centre (sigma : R) (h w : Z) :
  (0 <= h)%Z -> (0 <= w)%Z ->
  gauss_weight sigma h w (Z.to_nat (h / 2)) (Z.to_nat (w / 2)) = 1.
Proof.
  intros Hh Hw. unfold gauss_weight.
  rewrite !Z2Nat.id by (apply Z.div_pos; lia).
  rewrite !Z.sub_diag. cbn [Z.pow Z.pow_pos Pos.iter Z.mul Z.add].
  unfold Rdiv. rewrite Ropp_0, Rmult_0_l. apply exp_0.
Qed.

Lemma gauss_weight_le_centre (sigma : R) (h w : Z) (i j : nat) :
  sigma <> 0 -> gauss_weight sigma h w i j <= 1.
Proof.
  intros Hs. unfold gauss_weight. rewrite <- exp_0.
  apply exp_le.
  replace 0 with (- IZR 0 / (2 * sigma ^ 2)) by (unfold Rdiv; lra).
  apply gauss_exponent_le; [assumption|]. nia.
Qed.

Lemma gauss_table_total_ge_1 (sigma : R) (h w : Z) :
  (0 < h)%Z -> (0 < w)%Z -> 1 <= np_sum2 (gauss_table sigma h w).
Proof.
  intros Hh Hw. rewrite gauss_table_total.
  rewrite <- (gauss_weight_centre sigma h w) by lia.
  assert (Hcy : (Z.to_nat (h / 2) < Z.to_nat h)%nat).
  { apply Z2Nat.inj_lt; [apply Z.div_pos; lia | lia | apply Z.div_lt; lia]. }
  assert (Hcx : (Z.to_nat (w / 2) < Z.to_nat w)%nat).
  { apply Z2Nat.inj_lt; [apply Z.div_pos; lia | lia | apply Z.div_lt; lia]. }
  eapply Rle_trans;
    [|apply (bigsum_ge_term _ _ (Z.to_nat (h / 2))); [|exact Hcy]].
  - apply (bigsum_ge_term _ (gauss_weight sigma h w (Z.to_nat (h / 2))));
      [|exact Hcx].
    intros b _. apply Rlt_le, gauss_weight_pos.
  - intros a _. apply bigsum_nonneg. intros b _. apply Rlt_le, gauss_weight_pos.
Qed.

Lemma gauss_kernel_pos (sigma : R) (h w : Z) (i j : nat) :
  (0 < h)%Z -> (0 < w)%Z ->
  (i < Z.to_nat h)%nat -> (j < Z.to_nat w)%nat ->
  0 < get2 (kdata (gauss_kernel sigma h w)) i j.
Proof.
  intros Hh Hw Hi Hj. rewrite gaussian_get by assumption.
  apply Rmult_lt_0_compat; [|apply gauss_weight_pos].
  apply Rinv_0_lt_compat. now apply gauss_table_total_pos.
Qed.

(** ** What [low_pass] and [high_pass] do to an image *)

Lemma high_pass_get (img : ndarray3) (sigma : R) (size : Z) (i j k : nat) :
  sigma_in_range sigma -> (0 <= size)%Z ->
  (i < ih img)%nat -> (j < iw img)%nat -> (k < ic img)%nat ->
  exists hp, high_pass img sigma size = Ok hp
    /\ get3 (idata hp) i j k
       = get3 (idata img) i j k
         - get3 (idata (cross_correlation_2d img (gauss_kernel sigma size size)))
                i j k.
Proof.
  intros Hs Hz Hi Hj Hk. eexists. split; [now apply high_pass_returns|].
  cbn [idata]. now rewrite tabulate3_get.
Qed.

Lemma full_get (d : dtype) (h w c : nat) (v : R) (i j k : nat) :
  (i < h)%nat -> (j < w)%nat -> (k < c)%nat ->
  get3 (idata (full d h w c v)) i j k = v.
Proof.
  intros Hi Hj Hk. unfold get3, full; cbn [idata].
  apply Nat.ltb_lt in Hi, Hj, Hk.
  rewrite nth_repeat_cases, Hi, nth_repeat_cases, Hj, nth_repeat_cases, Hk.
  reflexivity.
Qed.



(** X4. On a channel where the image is a constant v (of magnitude
    between 1e-290 and 1e300), for a sigma with a square in the binary64
    range and a positive size, [low_pass] returns v at every pixel whose
    window lies inside the image, and [high_pass] returns 0 there, both
    up to the tolerance 1e-9 relative to v. *)
Theorem filters_on_constant_channel_interior
    (img : ndarray3) (sigma : R) (size : Z) (v : R) (k : nat)
    (Himg : wf3 img = true)
    (Hsigma : 0 < sigma) (Hrange : sigma_in_range sigma) (Hsize : (0 < size)%Z)
    (Hk : (k < ic img)%nat)
    (Hv : 1e-290 <= Rabs v <= 1e300)
    (Hconst : forall i j, (i < ih img)%nat -> (j < iw img)%nat ->
                get3 (idata img) i j k = v) :
  exists lp hp : ndarray3,
    low_pass img sigma size = Ok lp
    /\ high_pass img sigma size = Ok hp
    /\ forall i j,
         (Z.to_nat size / 2 <= i)%nat -> (i + Z.to_nat size / 2 < ih img)%nat ->
         (Z.to_nat size / 2 <= j)%nat -> (j + Z.to_nat size / 2 < iw img)%nat ->
         Rabs (get3 (idata lp) i j k - v) <= tol * Rabs v
         /\ Rabs (get3 (idata hp) i j k) <= tol * Rabs v.
Proof.
  assert (Hz : (0 <= size)%Z) by lia.
  eexists _, _. split; [now apply low_pass_returns|].
  split; [now apply high_pass_returns|].
  intros i j Hi1 Hi2 Hj1 Hj2.
  assert (Hlp : get3 (idata (cross_correlation_2d img (gauss_kernel sigma size size)))
                     i j k = v).
  { rewrite (cross_correlation_2d_constant_interior img _ v);
      try assumption; try apply gauss_kernel_wf; try apply gauss_kernel_float.
    now rewrite gaussian_sums_to_1, Rmult_1_r. }
  assert (Htol : 0 <= tol * Rabs v)
    by (apply Rmult_le_pos; [unfold tol; lra | apply Rabs_pos]).
  split.
  - rewrite Hlp. replace (v - v) with 0 by lra. now rewrite Rabs_R0.
  - cbn [idata]. rewrite tabulate3_get by (assumption || lia).
    rewrite Hlp, Hconst by lia. replace (v - v) with 0 by lra.
    now rewrite Rabs_R0.
Qed.

Lemma filters_on_constant_channel_interior_witness :
  exists lp hp : ndarray3,
    low_pass (full float64 5 5 1 7) 1 3 = Ok lp
    /\ high_pass (full float64 5 5 1 7) 1 3 = Ok hp
    /\ Rabs (get3 (idata lp) 2 2 0 - 7) <= tol * Rabs 7
    /\ Rabs (get3 (idata hp) 2 2 0) <= tol * Rabs 7.
Proof.
  destruct (filters_on_constant_channel_interior
              (full float64 5 5 1 7) 1 3 7 0 eq_refl)
    as [lp [hp [Hlp [Hhp H]]]];
    [lra | exact sigma_in_range_1 | reflexivity | cbn; lia | | |].
  - rewrite Rabs_pos_eq by lra. lra.
  - intros i j Hi Hj. cbn [ih iw full] in Hi, Hj. apply full_get; lia.
  - exists lp, hp. split; [exact Hlp|]. split; [exact Hhp|].
    apply H; compute; lia.
Defined.

(** ** Flipping the kernel *)

Lemma np_flip_involutive (kernel : ndarray2) : np_flip (np_flip kernel) = kernel.
Proof.
  destruct kernel as [t m n d]. unfold np_flip; cbn [kdtype kh kw kdata]. f_equal.
  rewrite map_rev, rev_involutive, map_map.
  rewrite (map_ext _ (fun row => row)) by (intros row; apply rev_involutive).
  apply map_id.
Qed.

(** X6. Flipping a kernel twice gives the kernel back, so convolving with
    the flipped kernel is correlating with the kernel itself; and every
    sample of a convolution is the window sum in which the kernel is read
    backwards along both axes, each product being stored in the common
    type of image and kernel. *)
Theorem convolve_2d_flip_duality (img : ndarray3) (kernel : ndarray2) :
  np_flip (np_flip kernel) = kernel
  /\ convolve_2d img (np_flip kernel) = cross_correlation_2d img kernel
  /\ (wf3 img = true -> wf2 kernel = true ->
      forall i j k, (i < ih img)%nat -> (j < iw img)%nat -> (k < ic img)%nat ->
        get3 (idata (convolve_2d img kernel)) i j k
        = bigsum (kh kernel) (fun a => bigsum (kw kernel) (fun b =>
            cast_to (promote (idtype img) (kdtype kernel))
              (padded_at img (kh kernel / 2) (kw kernel / 2) (i + a) (j + b) k
               * get2 (kdata kernel) (kh kernel - 1 - a) (kw kernel - 1 - b))))).
Proof.
  split; [apply np_flip_involutive|]. split.
  - unfold convolve_2d. now rewrite np_flip_involutive.
  - intros Himg Hker i j k Hi Hj Hk. unfold convolve_2d.
    rewrite cross_correlation_2d_get_cast by (try assumption; now apply np_flip_wf).
    cbn [kdtype kh kw np_flip].
    apply bigsum_ext; intros a Ha. apply bigsum_ext; intros b Hb.
    now rewrite np_flip_get.
Qed.

Lemma convolve_2d_flip_duality_witness :
  wf3 img_3x3 = true /\ wf2 diag_3x3 = true
  /\ get3 (idata (convolve_2d img_3x3 diag_3x3)) 0 0 0
     = bigsum 3 (fun a => bigsum 3 (fun b =>
         padded_at img_3x3 1 1 (0 + a) (0 + b) 0
         * get2 (kdata diag_3x3) (3 - 1 - a) (3 - 1 - b))).
Proof.
  split; [reflexivity|]. split; [reflexivity|].
  apply (proj2 (proj2 (convolve_2d_flip_duality img_3x3 diag_3x3))
           eq_refl eq_refl 0%nat 0%nat 0%nat); cbn; lia.
Defined.

(** X7. With an odd size and a sigma whose square is in the binary64
    range, [low_pass] is equally the convolution of the image with the
    Gaussian kernel it builds: the kernel is its own flip. *)
Theorem low_pass_is_a_convolution
    (img : ndarray3) (sigma : R) (size : Z)
    (Hsigma : 0 < sigma) (Hrange : sigma_in_range sigma)
    (Hsize : (0 < size)%Z) (Hodd : Z.odd size = true) :
  exists K : ndarray2,
    gaussian_blur_kernel_2d sigma size size = Ok K
    /\ low_pass img sigma size = Ok (convolve_2d img K)
    /\ convolve_2d img K = cross_correlation_2d img K.
Proof.
  exists (gauss_kernel sigma size size).
  assert (HK : gaussian_blur_kernel_2d sigma size size
               = Ok (gauss_kernel sigma size size)).
  { apply gaussian_blur_kernel_2d_returns; [assumption | lia | lia]. }
  assert (Hconv : convolve_2d img (gauss_kernel sigma size size)
                  = cross_correlation_2d img (gauss_kernel sigma size size)).
  { unfold convolve_2d. now rewrite gaussian_flip. }
  split; [exact HK|]. split; [|exact Hconv].
  unfold low_pass. rewrite HK. cbn [bind]. now rewrite Hconv.
Qed.

Lemma low_pass_is_a_convolution_witness :
  exists K : ndarray2,
    gaussian_blur_kernel_2d 1 3 3 = Ok K
    /\ low_pass img_3x3 1 3 = Ok (convolve_2d img_3x3 K).
Proof.
  destruct (low_pass_is_a_convolution img_3x3 1 3
              ltac:(lra) sigma_in_range_1 eq_refl eq_refl)
    as [K [HK [Hlp _]]].
  exists K. split; assumption.
Defined.

(** Cells at least as close to the centre weigh at least as much. *)
Lemma gauss_kernel_closer_le (sigma : R) (h w : Z) (i1 j1 i2 j2 : nat) :
  sigma <> 0 -> (0 < h)%Z -> (0 < w)%Z ->
  (i1 < Z.to_nat h)%nat -> (j1 < Z.to_nat w)%nat ->
  (i2 < Z.to_nat h)%nat -> (j2 < Z.to_nat w)%nat ->
  (Z.abs (Z.of_nat i2 - h / 2) <= Z.abs (Z.of_nat i1 - h / 2))%Z ->
  (Z.abs (Z.of_nat j2 - w / 2) <= Z.abs (Z.of_nat j1 - w / 2))%Z ->
  get2 (kdata (gauss_kernel sigma h w)) i1 j1
  <= get2 (kdata (gauss_kernel sigma h w)) i2 j2.
Proof.
  intros Hs Hh Hw Hi1 Hj1 Hi2 Hj2 Hrow Hcol. rewrite !gaussian_get by assumption.
  apply Rmult_le_compat_l.
  - apply Rlt_le, Rinv_0_lt_compat. now apply gauss_table_total_pos.
  - unfold gauss_weight. apply exp_le.
    apply gauss_exponent_le; [assumption|]. nia.
Qed.

(** ** The Gaussian kernel, cell by cell *)

(** X8. For sigma > 0 with a square in the binary64 range and positive h
    and w, no weight of the kernel is negative, none exceeds the weight
    of the centre cell (h//2, w//2), which is at most 1; a cell at least
    as close to the centre row and to the centre column as another weighs
    at least as much; and a square kernel equals its transpose. *)
Theorem gaussian_kernel_weights_peak_at_centre
    (sigma : R) (h w : Z)
    (Hsigma : 0 < sigma) (Hrange : sigma_in_range sigma)
    (Hh : (0 < h)%Z) (Hw : (0 < w)%Z) :
  exists K : ndarray2,
    gaussian_blur_kernel_2d sigma h w = Ok K
    /\ (forall i j, (i < kh K)%nat -> (j < kw K)%nat ->
          0 <= get2 (kdata K) i j
            <= get2 (kdata K) (Z.to_nat (h / 2)) (Z.to_nat (w / 2)))
    /\ get2 (kdata K) (Z.to_nat (h / 2)) (Z.to_nat (w / 2)) <= 1
    /\ (forall i1 j1 i2 j2,
          (i1 < kh K)%nat -> (j1 < kw K)%nat -> (i2 < kh K)%nat -> (j2 < kw K)%nat ->
          (Z.abs (Z.of_nat i2 - h / 2) <= Z.abs (Z.of_nat i1 - h / 2))%Z ->
          (Z.abs (Z.of_nat j2 - w / 2) <= Z.abs (Z.of_nat j1 - w / 2))%Z ->
          get2 (kdata K) i1 j1 <= get2 (kdata K) i2 j2)
    /\ (h = w -> forall i j, (i < kh K)%nat -> (j < kw K)%nat ->
          get2 (kdata K) i j = get2 (kdata K) j i).
Proof.
  assert (Hs : sigma <> 0) by lra.
  assert (Hcy : (Z.to_nat (h / 2) < Z.to_nat h)%nat).
  { apply Z2Nat.inj_lt; [apply Z.div_pos; lia | lia | apply Z.div_lt; lia]. }
  assert (Hcx : (Z.to_nat (w / 2) < Z.to_nat w)%nat).
  { apply Z2Nat.inj_lt; [apply Z.div_pos; lia | lia | apply Z.div_lt; lia]. }
  pose proof (gauss_table_total_pos sigma h w Hh Hw) as Htot.
  pose proof (gauss_table_total_ge_1 sigma h w Hh Hw) as Hge.
  exists (gauss_kernel sigma h w).
  split; [apply gaussian_blur_kernel_2d_returns; [assumption | lia | lia]|].
  cbn [kh kw gauss_kernel]. split; [|split; [|split]].
  3: { intros i1 j1 i2 j2 Hi1 Hj1 Hi2 Hj2 Hrow Hcol.
       now apply gauss_kernel_closer_le. }
  - intros i j Hi Hj. split; [apply Rlt_le; now apply gauss_kernel_pos|].
    rewrite !gaussian_get by assumption.
    rewrite gauss_weight_centre by lia.
    apply Rmult_le_compat_l; [|now apply gauss_weight_le_centre].
    apply Rlt_le. now apply Rinv_0_lt_compat.
  - rewrite gaussian_get by assumption. rewrite gauss_weight_centre by lia.
    rewrite Rmult_1_r, <- Rinv_1. now apply Rinv_le_contravar; [lra|].
  - intros <- i j Hi Hj. rewrite !gaussian_get by assumption. f_equal.
    unfold gauss_weight.
    now rewrite (Z.add_comm ((Z.of_nat i - h / 2) ^ 2)).
Qed.

Lemma gaussian_kernel_weights_peak_at_centre_witness :
  exists K : ndarray2,
    gaussian_blur_kernel_2d 1 3 3 = Ok K
    /\ get2 (kdata K) 1 1 <= 1.
Proof.
  destruct (gaussian_kernel_weights_peak_at_centre 1 3 3
              ltac:(lra) sigma_in_range_1 eq_refl eq_refl)
    as [K [HK [_ [Hc _]]]].
  exists K. split; assumption.
Defined.

(** ** Degenerate sizes *)

Lemma map_const_seq {A : Type} (x : A) (s n : nat) :
  map (fun _ => x) (seq s n) = repeat x n.
Proof.
  revert s. induction n as [|n IH]; intros s; [reflexivity|].
  simpl. now rewrite IH.
Qed.

Lemma map_map_nil (f : R -> R) (n : nat) :
  map (map f) (repeat [] n) = repeat [] n.
Proof. induction n as [|n IH]; [reflexivity|]. simpl. now rewrite IH. Qed.

(** X10. A kernel with an empty side has no cell to fill: for h, w >= 0
    with h = 0 or w = 0, [gaussian_blur_kernel_2d] returns the empty h x w
    kernel for every sigma, sigma = 0 included (no division happens). *)
Theorem gaussian_kernel_with_an_empty_side
    (sigma : R) (h w : Z)
    (Hh : (0 <= h)%Z) (Hw : (0 <= w)%Z) (Hempty : h = 0%Z \/ w = 0%Z) :
  gaussian_blur_kernel_2d sigma h w
  = Ok (mkArr2 float64 (Z.to_nat h) (Z.to_nat w) (repeat [] (Z.to_nat h))).
Proof.
  unfold gaussian_blur_kernel_2d.
  replace ((h <? 0) || (w <? 0))%Z%bool with false
    by (symmetry; apply orb_false_iff; split; apply Z.ltb_ge; lia).
  destruct Hempty as [-> | ->].
  - reflexivity.
  - change (Z.to_nat 0) with 0%nat. cbn [seq mapM].
    rewrite (mapM_seq _ (fun _ => [])) by reflexivity.
    cbn [bind]. now rewrite map_const_seq, map_map_nil.
Qed.

Lemma gaussian_kernel_with_an_empty_side_witness :
  gaussian_blur_kernel_2d 0 3 0 = Ok (mkArr2 float64 3 0 [[]; []; []]).
Proof.
  apply (gaussian_kernel_with_an_empty_side 0 3 0); [lia | lia | now right].
Defined.

(** X11. With size 0 the filters never look at sigma: for every image and
    every sigma, [low_pass] returns the all-zero image of the input's
    shape and [high_pass] returns the samples of the input. *)
Theorem filters_with_size_zero
    (img : ndarray3) (sigma : R) (Himg : wf3 img = true) :
  exists lp hp : ndarray3,
    low_pass img sigma 0 = Ok lp
    /\ high_pass img sigma 0 = Ok hp
    /\ (ih lp, iw lp, ic lp) = (ih img, iw img, ic img)
    /\ (ih hp, iw hp, ic hp) = (ih img, iw img, ic img)
    /\ (forall i j k, (i < ih img)%nat -> (j < iw img)%nat -> (k < ic img)%nat ->
          get3 (idata lp) i j k = 0)
    /\ idata hp = idata img.
Proof.
  assert (Hlp : low_pass img sigma 0
                = Ok (cross_correlation_2d img (mkArr2 float64 0 0 [])))
    by reflexivity.
  assert (Hzero : forall i j k, (i < ih img)%nat -> (j < iw img)%nat ->
            (k < ic img)%nat ->
            get3 (idata (cross_correlation_2d img (mkArr2 float64 0 0 []))) i j k = 0).
  { intros i j k Hi Hj Hk. now rewrite cross_correlation_2d_get_cast. }
  pose proof (high_pass_of_low_pass img sigma 0) as Hhp. rewrite Hlp in Hhp.
  eexists _, _. split; [exact Hlp|]. split; [exact Hhp|].
  split; [reflexivity|]. split; [reflexivity|]. split; [exact Hzero|].
  cbn [idata]. etransitivity; [|apply (tabulate3_get_self _ _ _ _ Himg)].
  apply tabulate3_ext. intros i j k Hi Hj Hk. rewrite Hzero by assumption. lra.
Qed.

Lemma filters_with_size_zero_witness :
  exists lp hp : ndarray3,
    low_pass img_3x3 0 0 = Ok lp
    /\ high_pass img_3x3 0 0 = Ok hp
    /\ idata hp = idata img_3x3.
Proof.
  destruct (filters_with_size_zero img_3x3 0 eq_refl)
    as [lp [hp [Hlp [Hhp [_ [_ [_ Hdata]]]]]]].
  exists lp, hp. repeat (split; [assumption|]). exact Hdata.
Defined.

(** The single weight of a 1 x 1 Gaussian kernel is 1. *)
Lemma gauss_kernel_1x1 (sigma : R) :
  get2 (kdata (gauss_kernel sigma 1 1)) 0 0 = 1.
Proof.
  pose proof (gaussian_sums_to_1 sigma 1 1 ltac:(lia) ltac:(lia)) as H.
  rewrite (np_sum2_get _ _ _ (gauss_kernel_wf sigma 1 1)) in H.
  cbn [kh kw gauss_kernel] in H. change (Z.to_nat 1) with 1%nat in H.
  cbn [bigsum] in H. lra.
Qed.

(** X12. With size 1 the kernel is the single weight 1: for sigma > 0
    with a square in the binary64 range, [low_pass] returns the samples
    of the input unchanged and [high_pass] returns 0 everywhere. *)
Theorem filters_with_size_one
    (img : ndarray3) (sigma : R) (Himg : wf3 img = true)
    (Hsigma : 0 < sigma) (Hrange : sigma_in_range sigma) :
  exists lp hp : ndarray3,
    low_pass img sigma 1 = Ok lp
    /\ high_pass img sigma 1 = Ok hp
    /\ idata lp = idata img
    /\ (forall i j k, (i < ih img)%nat -> (j < iw img)%nat -> (k < ic img)%nat ->
          get3 (idata hp) i j k = 0).
Proof.
  assert (Hsame : forall i j k, (i < ih img)%nat -> (j < iw img)%nat ->
            (k < ic img)%nat ->
            get3 (idata (cross_correlation_2d img (gauss_kernel sigma 1 1))) i j k
            = get3 (idata img) i j k).
  { intros i j k Hi Hj Hk.
    rewrite cross_correlation_2d_get
      by (try assumption; apply gauss_kernel_wf || apply gauss_kernel_float).
    cbn [kh kw gauss_kernel]. change (Z.to_nat 1) with 1%nat.
    cbn [bigsum]. rewrite gauss_kernel_1x1.
    change (1 / 2)%nat with 0%nat.
    rewrite padded_at_interior by lia.
    rewrite !Nat.add_0_r, !Nat.sub_0_r. lra. }
  eexists _, _. split; [apply low_pass_returns; [assumption | lia]|].
  split; [apply high_pass_returns; [assumption | lia]|].
  split.
  - cbn [idata cross_correlation_2d].
    etransitivity; [|apply (tabulate3_get_self _ _ _ _ Himg)].
    apply tabulate3_ext. intros i j k Hi Hj Hk.
    rewrite <- (Hsame i j k Hi Hj Hk).
    unfold cross_correlation_2d; cbn [idata]. now rewrite tabulate3_get.
  - intros i j k Hi Hj Hk. cbn [idata]. rewrite tabulate3_get by assumption.
    rewrite Hsame by assumption. lra.
Qed.

Lemma filters_with_size_one_witness :
  exists lp hp : ndarray3,
    low_pass img_3x3 2 1 = Ok lp
    /\ high_pass img_3x3 2 1 = Ok hp
    /\ idata lp = idata img_3x3.
Proof.
  destruct (filters_with_size_one img_3x3 2 eq_refl ltac:(lra) sigma_in_range_2)
    as [lp [hp [Hlp [Hhp [Hdata _]]]]].
  exists lp, hp. repeat (split; [assumption|]). exact Hdata.
Defined.

(** ** Every way a call can fail *)

Lemma gaussian_blur_kernel_2d_raised (sigma : R) (size : Z) :
  raised (gaussian_blur_kernel_2d sigma size size) = kernel_error sigma size.
Proof.
  unfold kernel_error.
  destruct (Z.ltb_spec size 0) as [Hneg|Hnn].
  { rewrite gaussian_blur_kernel_2d_negative by now left. reflexivity. }
  destruct (Z.ltb_spec 0 size) as [Hpos|Hz].
  - destruct (Rle_dec sq_overflow (sigma ^ 2)) as [Hov|Hov].
    { now rewrite gaussian_blur_kernel_2d_overflow. }
    destruct (Rle_dec (sigma ^ 2) sq_underflow) as [Hun|Hun].
    { now rewrite gaussian_blur_kernel_2d_underflow. }
    rewrite gaussian_blur_kernel_2d_returns; [reflexivity | | lia | lia].
    unfold sigma_in_range. lra.
  - replace size with 0%Z by lia. reflexivity.
Qed.

(** X13. The exception [create_hybrid_image] ends with is the first of:
    the kernel failure for the first image (ValueError for a negative
    size; with a positive size, OverflowError when the square of sigma
    reaches 2^1024 and ZeroDivisionError when it is at most 2^-1075, as
    for sigma = 0), the same for the second image, and the broadcasting
    ValueError of the final sum.  With none of these the call returns; it
    never raises a TypeError, and neither the modes nor the samples nor
    the mixing parameters play a part. *)
Theorem create_hybrid_image_failures
    (img1 img2 : ndarray3)
    (sigma1 : R) (size1 : Z) (high_low1 : string)
    (sigma2 : R) (size2 : Z) (high_low2 : string)
    (mixin_ratio scale_factor : R) :
  raised (create_hybrid_image img1 img2 sigma1 size1 high_low1
                              sigma2 size2 high_low2 mixin_ratio scale_factor)
  = first_error (kernel_error sigma1 size1) (kernel_error sigma2 size2)
                (raised (broadcast_shape img1 img2))
  /\ raised (create_hybrid_image img1 img2 sigma1 size1 high_low1
                                 sigma2 size2 high_low2 mixin_ratio scale_factor)
     <> Some TypeError.
Proof.
  assert (H : raised (create_hybrid_image img1 img2 sigma1 size1 high_low1
                        sigma2 size2 high_low2 mixin_ratio scale_factor)
              = first_error (kernel_error sigma1 size1) (kernel_error sigma2 size2)
                            (raised (broadcast_shape img1 img2))).
  { rewrite create_hybrid_image_stages, hybrid_after_normalisation_raised.
    rewrite normalise_pair_shapes, !gaussian_blur_kernel_2d_raised.
    unfold first_error.
    destruct (kernel_error sigma1 size1), (kernel_error sigma2 size2); reflexivity. }
  assert (Hk : forall sigma size, kernel_error sigma size <> Some TypeError).
  { intros sigma size. unfold kernel_error.
    destruct (size <? 0)%Z; [discriminate|].
    destruct (0 <? size)%Z; [|discriminate].
    destruct (Rle_dec sq_overflow (sigma ^ 2)); [discriminate|].
    destruct (Rle_dec (sigma ^ 2) sq_underflow); discriminate. }
  split; [exact H|]. rewrite H. unfold first_error.
  pose proof (Hk sigma1 size1) as H1. pose proof (Hk sigma2 size2) as H2.
  destruct (kernel_error sigma1 size1) as [e1|]; [exact H1|].
  destruct (kernel_error sigma2 size2) as [e2|]; [exact H2|].
  destruct (broadcast_shape img1 img2) as [shape|e] eqn:Eb; [discriminate|].
  apply broadcast_shape_error in Eb. subst. discriminate.
Qed.

(** ** The mixing weights at their ends *)

Lemma hybrid_pipeline_ignores_second (n1 n2 n2' : ndarray3)
    (sigma1 : R) (size1 : Z) (high_low1 : string)
    (sigma2 : R) (size2 : Z) (high_low2 : string) (s : R) :
  hybrid_pipeline n1 n2 sigma1 size1 high_low1 sigma2 size2 high_low2 0 s
  = hybrid_pipeline n1 n2' sigma1 size1 high_low1 sigma2 size2 high_low2 0 s.
Proof.
  unfold hybrid_pipeline.
  destruct (filter_of_mode high_low1 n1 sigma1 size1) as [f1|e1]; [|reflexivity].
  cbn [bind].
  pose proof (filter_of_mode_raised high_low2 n2 sigma2 size2) as H.
  pose proof (filter_of_mode_raised high_low2 n2' sigma2 size2) as H'.
  destruct (filter_of_mode high_low2 n2 sigma2 size2) as [f2|e2];
    destruct (filter_of_mode high_low2 n2' sigma2 size2) as [f2'|e2'];
    cbn [raised bind] in *; try congruence.
  do 2 f_equal. apply tabulate3_ext. intros i j k _ _ _.
  f_equal. unfold blend. lra.
Qed.

(** X14. With mixin_ratio = 0 the samples of the second image play no
    part, as long as they are of moderate size (at most 1e30 in
    magnitude, so that no product with 0 is undefined): replacing [img2]
    by any other such image of the same shape gives the same outcome (the
    same image, or the same exception). *)
Theorem create_hybrid_image_mixin_zero
    (img1 img2 img2' : ndarray3)
    (sigma1 : R) (size1 : Z) (high_low1 : string)
    (sigma2 : R) (size2 : Z) (high_low2 : string)
    (scale_factor : R)
    (Hshape : (ih img2, iw img2, ic img2) = (ih img1, iw img1, ic img1))
    (Hshape' : (ih img2', iw img2', ic img2') = (ih img1, iw img1, ic img1))
    (Hsize : all_samples (fun x => Rabs x <= 1e30) img2)
    (Hsize' : all_samples (fun x => Rabs x <= 1e30) img2') :
  create_hybrid_image img1 img2' sigma1 size1 high_low1
                      sigma2 size2 high_low2 0 scale_factor
  = create_hybrid_image img1 img2 sigma1 size1 high_low1
                        sigma2 size2 high_low2 0 scale_factor.
Proof.
  rewrite !create_hybrid_image_pipeline by assumption.
  replace (fst (normalise_pair img1 img2')) with (fst (normalise_pair img1 img2))
    by (unfold normalise_pair; now destruct (dtype_eqb (idtype img1) uint8)).
  apply hybrid_pipeline_ignores_second.
Qed.

Lemma create_hybrid_image_mixin_zero_witness :
  img_3x3_alt <> img_3x3
  /\ create_hybrid_image img_3x3 img_3x3_alt 1 3 "low" 1 3 "high" 0 1
     = create_hybrid_image img_3x3 img_3x3 1 3 "low" 1 3 "high" 0 1.
Proof.
  split.
  - intros [= H]. apply eq_IZR in H. discriminate H.
  - apply (create_hybrid_image_mixin_zero img_3x3 img_3x3 img_3x3_alt);
      try reflexivity;
      unfold all_samples; cbn [idata img_3x3 img_3x3_alt];
      repeat constructor;
      (rewrite Rabs_pos_eq by lra; lra).
Defined.
